(** * SFBAudioUtilities: [SFB::CFWrapper] and [SFBDeferredClosure]

    A shallow embedding of the two headers [SFBCFWrapper.hpp] and
    [SFBDeferredClosure.hpp], and the lifetime properties of both.

    C++ objects live in a store indexed by their address, so that two
    references ([this] and [rhs]) may name the same object.  The Core
    Foundation primitives [CFRetain], [CFRelease] and [CFEqual] belong to the
    host system: they are modelled by their documented contract (a reference
    count per object), and every call is recorded in a trace. *)

From stdpp Require Import base option list gmap.
From Stdlib Require Import ZArith NArith Lia.

Local Open Scope Z_scope.

(** ** Handles and the host object system *)

(** A [CFTypeRef] is a pointer: an address, [0] being [nullptr]. *)
Definition handle : Type := N.
Bind Scope N_scope with handle.
Definition nullptr : handle := 0%N.

(** The address of a C++ object ([this], [&rhs]). *)
Definition addr : Type := positive.
Bind Scope positive_scope with addr.

(** Truth value of a pointer in a condition: [if(mObject ...)]. *)
Definition nonnull (h : handle) : bool := negb (h =? nullptr)%N.

(** [mObject != rhs] on pointers. *)
Definition ptr_ne (a b : handle) : bool := negb (a =? b)%N.

(** The calls made into Core Foundation. *)
Inductive host_call : Type :=
| Retain (h : handle)
| Release (h : handle)
| Equal (a b : handle).

Global Instance host_call_eq_dec : EqDecision host_call.
Proof. solve_decision. Defined.

(** ** The wrapper object *)

(** [T mObject; bool mRelease;] *)
Record CFWrapper : Type := mkCFWrapper {
  mObject : handle;
  mRelease : bool
}.

Global Instance CFWrapper_eq_dec : EqDecision CFWrapper.
Proof. solve_decision. Defined.

(** The condition [mObject && mRelease] guarding every retain and release. *)
Definition owning (w : CFWrapper) : bool := nonnull (mObject w) && mRelease w.

(** The three states of the specification's state machine. *)
Inductive wstate : Type :=
| Empty
| Owning (h : handle)
| Borrowing (h : handle).

Definition state_of (w : CFWrapper) : wstate :=
  if nonnull (mObject w)
  then if mRelease w then Owning (mObject w) else Borrowing (mObject w)
  else Empty.

(** ** The world: object store, host reference counts, trace of host calls *)

Record world : Type := mkWorld {
  objs : gmap addr CFWrapper;
  refs : gmap handle Z;
  calls : list host_call
}.

(** [R σ h] is the host reference count of [h]. *)
Definition refcount (rf : gmap handle Z) (h : handle) : Z := default 0 (rf !! h).
Definition R (σ : world) (h : handle) : Z := refcount (refs σ) h.

(** The handles retained, and the handles released, by a trace of calls. *)
Definition retained (t : list host_call) : list handle :=
  omap (λ c, match c with Retain h => Some h | _ => None end) t.

Definition released (t : list host_call) : list handle :=
  omap (λ c, match c with Release h => Some h | _ => None end) t.

(** ** A state and failure monad

    [None] is undefined behaviour: touching an object outside its lifetime,
    or handing [nullptr] to Core Foundation. *)

Definition M (A : Type) : Type := world → option (A * world).

Definition ret {A} (a : A) : M A := λ σ, Some (a, σ).

Definition bind {A B} (m : M A) (k : A → M B) : M B :=
  λ σ, match m σ with
       | Some (a, σ') => k a σ'
       | None => None
       end.

Declare Scope cf_scope.
Delimit Scope cf_scope with cf.
Notation "'do' x <- m ; k" := (bind m (λ x, k))
  (at level 10, x name, m at level 100, k at level 200,
   format "'[v' 'do'  x  <-  m ; '/' k ']'") : cf_scope.
Notation "m >> k" := (bind m (λ _, k))
  (at level 100, k at level 200, right associativity) : cf_scope.
Local Open Scope cf_scope.

(** [if(c) m;] *)
Definition when (c : bool) (m : M unit) : M unit := if c then m else ret tt.

(** *** Host primitives

    [CFRetain], [CFRelease] and [CFEqual] are Core Foundation functions.
    None of them accepts [nullptr]. *)

(** Modelled from the spec: [CFRetain] is declared in CoreFoundation.h.
    "A Retain(h) operation that increments the reference count of a non-empty
    handle." *)
Definition CFRetain (h : handle) : M unit := λ σ,
  if nonnull h
  then Some (tt, mkWorld (objs σ) (<[h := R σ h + 1]> (refs σ)) (calls σ ++ [Retain h]))
  else None.

(** Modelled from the spec: [CFRelease] is declared in CoreFoundation.h.
    "A Release(h) operation that decrements the reference count". *)
Definition CFRelease (h : handle) : M unit := λ σ,
  if nonnull h
  then Some (tt, mkWorld (objs σ) (<[h := R σ h - 1]> (refs σ)) (calls σ ++ [Release h]))
  else None.

(** *** Object store primitives *)

(** Read a member of a live object. *)
Definition get_mObject (p : addr) : M handle := λ σ,
  match objs σ !! p with
  | Some w => Some (mObject w, σ)
  | None => None
  end.

Definition get_mRelease (p : addr) : M bool := λ σ,
  match objs σ !! p with
  | Some w => Some (mRelease w, σ)
  | None => None
  end.

(** Write a member of a live object. *)
Definition set_mObject (p : addr) (h : handle) : M unit := λ σ,
  match objs σ !! p with
  | Some w => Some (tt, mkWorld (<[p := mkCFWrapper h (mRelease w)]> (objs σ)) (refs σ) (calls σ))
  | None => None
  end.

Definition set_mRelease (p : addr) (b : bool) : M unit := λ σ,
  match objs σ !! p with
  | Some w => Some (tt, mkWorld (<[p := mkCFWrapper (mObject w) b]> (objs σ)) (refs σ) (calls σ))
  | None => None
  end.

(** The member initialiser list [: mObject(h), mRelease(b)]: the lifetime of
    the object at [p] begins. *)
Definition init (p : addr) (h : handle) (b : bool) : M unit := λ σ,
  match objs σ !! p with
  | Some _ => None
  | None => Some (tt, mkWorld (<[p := mkCFWrapper h b]> (objs σ)) (refs σ) (calls σ))
  end.

(** The lifetime of the object at [p] ends. *)
Definition end_lifetime (p : addr) : M unit := λ σ,
  match objs σ !! p with
  | Some _ => Some (tt, mkWorld (delete p (objs σ)) (refs σ) (calls σ))
  | None => None
  end.

(** ** [SFB::CFWrapper<T>] *)

Section CFWrapperMethods.

(** The host equality predicate behind [CFEqual]. *)
Variable host_equal : handle → handle → bool.

(** Modelled from the spec: [CFEqual] is declared in CoreFoundation.h.
    "An Equal(h1, h2) predicate returning true iff two non-empty handles
    identify equal objects"; the source notes that it "doesn't handle
    nullptr". *)
Definition CFEqual (a b : handle) : M bool := λ σ,
  if nonnull a && nonnull b
  then Some (host_equal a b, mkWorld (objs σ) (refs σ) (calls σ ++ [Equal a b]))
  else None.

(** [if(mObject && mRelease) CFRelease(mObject);] *)
Definition release_if_owned (this : addr) : M unit :=
  do o <- get_mObject this;
  do r <- get_mRelease this;
  when (nonnull o && r) (CFRelease o).

(** [if(mObject && mRelease) CFRetain(mObject);] *)
Definition retain_if_owned (this : addr) : M unit :=
  do o <- get_mObject this;
  do r <- get_mRelease this;
  when (nonnull o && r) (CFRetain o).

(** [CFWrapper(T object, bool release) : mObject(object), mRelease(release) {}] *)
Definition ctor (this : addr) (object : handle) (release : bool) : M unit :=
  init this object release.

(** [explicit CFWrapper(T object) : CFWrapper(object, true) {}] *)
Definition ctor_object (this : addr) (object : handle) : M unit :=
  ctor this object true.

(** [CFWrapper() : CFWrapper(nullptr) {}] *)
Definition ctor_default (this : addr) : M unit :=
  ctor_object this nullptr.

(** [CFWrapper(const CFWrapper& rhs)] *)
Definition copy_ctor (this rhs : addr) : M unit :=
  do o <- get_mObject rhs;
  do r <- get_mRelease rhs;
  init this o r >>
  retain_if_owned this.

(** [CFWrapper& operator=(const CFWrapper& rhs)] *)
Definition assign_copy (this rhs : addr) : M unit :=
  do o <- get_mObject this;
  do ro <- get_mObject rhs;
  when (ptr_ne o ro)
    (release_if_owned this >>
     (do ro <- get_mObject rhs; set_mObject this ro) >>
     (do rr <- get_mRelease rhs; set_mRelease this rr) >>
     retain_if_owned this).

(** The body of [~CFWrapper()]. *)
Definition dtor (this : addr) : M unit :=
  release_if_owned this >>
  set_mObject this nullptr.

(** Destruction of the object: the destructor runs, then the lifetime ends. *)
Definition destroy (this : addr) : M unit :=
  dtor this >>
  end_lifetime this.

(** [CFWrapper(CFWrapper&& rhs)] *)
Definition move_ctor (this rhs : addr) : M unit :=
  do o <- get_mObject rhs;
  do r <- get_mRelease rhs;
  init this o r >>
  set_mObject rhs nullptr.

(** [CFWrapper& operator=(CFWrapper&& rhs)] *)
Definition assign_move (this rhs : addr) : M unit :=
  do o <- get_mObject this;
  do ro <- get_mObject rhs;
  when (ptr_ne o ro)
    (release_if_owned this >>
     (do ro <- get_mObject rhs; set_mObject this ro) >>
     (do rr <- get_mRelease rhs; set_mRelease this rr) >>
     set_mObject rhs nullptr).

(** [CFWrapper& operator=(const T& rhs)] *)
Definition assign_raw (this : addr) (rhs : handle) : M unit :=
  do o <- get_mObject this;
  when (ptr_ne o rhs)
    (release_if_owned this >>
     set_mObject this rhs >>
     set_mRelease this true).

(** [T Relinquish()] *)
Definition Relinquish (this : addr) : M handle :=
  do object <- get_mObject this;
  set_mObject this nullptr >>
  ret object.

(** [bool operator==(const CFWrapper& rhs) const] *)
Definition op_eq (this rhs : addr) : M bool :=
  do a <- get_mObject this;
  do b <- get_mObject rhs;
  if (a =? b)%N then ret true
  else if negb (nonnull a) || negb (nonnull b) then ret false
  else CFEqual a b.

(** [bool operator!=(const CFWrapper& rhs) const] *)
Definition op_ne (this rhs : addr) : M bool :=
  do e <- op_eq this rhs;
  ret (negb e).

(** [explicit operator bool() const] *)
Definition op_bool (this : addr) : M bool :=
  do o <- get_mObject this;
  ret (ptr_ne o nullptr).

(** [bool operator!() const] *)
Definition op_not (this : addr) : M bool :=
  do b <- op_bool this;
  ret (negb b).

(** [T Object() const] and [operator T() const] *)
Definition Object (this : addr) : M handle := get_mObject this.

End CFWrapperMethods.


(** ** Vocabulary of the properties *)

(** The calls a method added to the trace: what [σ'] has after [σ]. *)
Definition new_calls (σ σ' : world) : list host_call :=
  drop (length (calls σ)) (calls σ').

(** A copy is made by the copy constructor or by copy assignment. *)
Inductive copy_kind : Type := CopyConstruct | CopyAssign.

Definition copy (k : copy_kind) (this rhs : addr) : M unit :=
  match k with
  | CopyConstruct => copy_ctor this rhs
  | CopyAssign => assign_copy this rhs
  end.

(** Where a copy of the members [r] can be made at [this]: the copy
    constructor needs fresh storage; copy assignment needs a live target,
    and only acts when the target's handle is not already that of [r]. *)
Definition copy_target (k : copy_kind) (σ : world) (this : addr) (r : CFWrapper) : Prop :=
  match k with
  | CopyConstruct => objs σ !! this = None
  | CopyAssign => ∃ w, objs σ !! this = Some w ∧ mObject w ≠ mObject r
  end.

(** The host calls of [if(mObject && mRelease) CFRelease(mObject)] and of
    [if(mObject && mRelease) CFRetain(mObject)] for an object whose members
    are [w], and their effect on the reference counts. *)
Definition release_calls (w : CFWrapper) : list host_call :=
  if owning w then [Release (mObject w)] else [].

Definition retain_calls (w : CFWrapper) : list host_call :=
  if owning w then [Retain (mObject w)] else [].

Definition refs_release (w : CFWrapper) (rf : gmap handle Z) : gmap handle Z :=
  if owning w then <[mObject w := refcount rf (mObject w) - 1]> rf else rf.

Definition refs_retain (w : CFWrapper) (rf : gmap handle Z) : gmap handle Z :=
  if owning w then <[mObject w := refcount rf (mObject w) + 1]> rf else rf.

(** The references to [h] that the members [w] account for: one if [w]
    owns [h], none otherwise. *)
Definition owned_refs (w : CFWrapper) (h : handle) : Z :=
  if owning w && (mObject w =? h)%N then 1 else 0.

(** ** Sequences of operations

    A client program, as far as wrappers are concerned, is a sequence of
    calls of the constructors, the assignment operators, [Relinquish] and the
    destructor, each on the object at some address. *)
Inductive cmd : Type :=
| Construct (this : addr) (object : handle) (release : bool)
| CopyCtor (this rhs : addr)
| MoveCtor (this rhs : addr)
| AssignCopy (this rhs : addr)
| AssignMove (this rhs : addr)
| AssignRaw (this : addr) (rhs : handle)
| DoRelinquish (this : addr)
| Destroy (this : addr).

(** The object whose member function runs: every host call of a command is
    issued by this object. *)
Definition target (c : cmd) : addr :=
  match c with
  | Construct this _ _ | CopyCtor this _ | MoveCtor this _
  | AssignCopy this _ | AssignMove this _ | AssignRaw this _
  | DoRelinquish this | Destroy this => this
  end.

Definition exec_cmd (c : cmd) : M unit :=
  match c with
  | Construct this object release => ctor this object release
  | CopyCtor this rhs => copy_ctor this rhs
  | MoveCtor this rhs => move_ctor this rhs
  | AssignCopy this rhs => assign_copy this rhs
  | AssignMove this rhs => assign_move this rhs
  | AssignRaw this rhs => assign_raw this rhs
  | DoRelinquish this => (do _h <- Relinquish this; ret tt)
  | Destroy this => destroy this
  end.

(** The object at [a] is alive and owns a reference to [h]. *)
Definition holds (σ : world) (a : addr) (h : handle) : bool :=
  match objs σ !! a with
  | Some w => owning w && (mObject w =? h)%N
  | None => false
  end.

Definition holds_count (σ : world) (a : addr) (h : handle) : nat :=
  if holds σ a h then 1 else 0.

(** In the step from [σ] to [σ'], the object at [a] began to own [h]. *)
Definition acquired (a : addr) (h : handle) (σ σ' : world) : nat :=
  if negb (holds σ a h) && holds σ' a h then 1 else 0.

(** The number of [CFRelease(h)] that the object at [a] issued in the step
    [c] from [σ] to [σ']. *)
Definition released_by (a : addr) (h : handle) (c : cmd) (σ σ' : world) : nat :=
  if decide (target c = a)
  then length (filter (λ x, x = h) (released (new_calls σ σ')))
  else 0.

(** Run a program and keep the books of the object at [a] for the handle
    [h]: the ownerships of [h] it acquired, the releases of [h] it issued,
    and the final world. *)
Fixpoint audit (a : addr) (h : handle) (prog : list cmd) (σ : world)
  : option (nat * nat * world) :=
  match prog with
  | [] => Some (0, 0, σ)%nat
  | c :: prog =>
      match exec_cmd c σ with
      | Some (_, σ1) =>
          match audit a h prog σ1 with
          | Some (acq, rel, σ') =>
              Some (acquired a h σ σ1 + acq, released_by a h c σ σ1 + rel, σ')%nat
          | None => None
          end
      | None => None
      end
  end.

(** A host in which object 7 has one outstanding reference. *)
Definition fresh_object : world := mkWorld ∅ {[ 7%N := 1 ]} [].

(** ** [SFBDeferredClosure<F>] *)

Module Deferred.

Section WithEnvironment.

(** What the closures act upon: the variables they capture by reference and
    the rest of the program state. *)
Variable Env : Type.

(** [const F& mClosure;]: the object holds a reference to the callable, not
    the callable itself. *)
Record SFBDeferredClosure : Type := mkDeferred {
  mClosure : addr
}.

(** The callables alive in the program, the deferred closures alive, and the
    trace of the callables invoked so far. *)
Record state : Type := mkState {
  env : Env;
  callables : gmap addr (Env → Env);
  deferred : gmap addr SFBDeferredClosure;
  invoked : list addr
}.

(** [SFBDeferredClosure(const F& closure) noexcept : mClosure(closure) {}] *)
Definition ctor (this : addr) (closure : addr) (s : state) : option state :=
  match deferred s !! this with
  | Some _ => None
  | None =>
      Some (mkState (env s) (callables s) (<[this := mkDeferred closure]> (deferred s))
                    (invoked s))
  end.

(** [mClosure()]: invoking through a dangling reference is undefined. *)
Definition call (closure : addr) (s : state) : option state :=
  match callables s !! closure with
  | Some f => Some (mkState (f (env s)) (callables s) (deferred s) (invoked s ++ [closure]))
  | None => None
  end.

(** [~SFBDeferredClosure() { mClosure(); }], after which the lifetime of the
    object ends. *)
Definition dtor (this : addr) (s : state) : option state :=
  match deferred s !! this with
  | Some d =>
      match call (mClosure d) s with
      | Some s' =>
          Some (mkState (env s') (callables s') (delete this (deferred s')) (invoked s'))
      | None => None
      end
  | None => None
  end.

(** How many times the callable at [closure] was invoked between [s] and [s']. *)
Definition invocations (closure : addr) (s s' : state) : nat :=
  length (filter (λ c, c = closure) (drop (length (invoked s)) (invoked s'))).

End WithEnvironment.

Arguments mkState {Env} _ _ _ _.
Arguments env {Env} _.
Arguments callables {Env} _.
Arguments deferred {Env} _.
Arguments invoked {Env} _.
Arguments ctor {Env} _ _ _.
Arguments call {Env} _ _.
Arguments dtor {Env} _ _.
Arguments invocations {Env} _ _ _.

End Deferred.

(** ** The rest of [SFB::CFWrapper<T>] *)

(** [T * operator&()]: a pointer to the member [mObject] of the object at
    [this].  The pointer is represented by the address of the object. *)
Definition op_addr (this : addr) : M addr := λ σ,
  match objs σ !! this with
  | Some _ => Some (this, σ)
  | None => None
  end.

(** [*p = h], for a pointer [p] obtained from [operator&]: what a host
    function does with an out-parameter. *)
Definition store_handle (p : addr) (h : handle) : M unit := set_mObject p h.

(** Modelled from the spec: the Create functions of Core Foundation
    ([CFStringCreateWithCString], [CFNumberCreate], [CFArrayCreate], ...) are
    declared in CoreFoundation.h.  Each is "a documented factory function that
    returns a newly-owned handle", and "may yield an empty handle on
    allocation or argument failure".  [outcome] is the handle the host
    returns; the caller receives one reference to it. *)
Definition CFCreate (outcome : handle) : M handle := λ σ,
  if nonnull outcome
  then Some (outcome, mkWorld (objs σ) (<[outcome := R σ outcome + 1]> (refs σ)) (calls σ))
  else Some (nullptr, σ).

Section FactoryConstructors.

(** The call of the host factory with its arguments, as it appears in the
    constructor: [CFStringCreateWithCString(kCFAllocatorDefault, cStr,
    encoding)] and the like. *)
Variable create : M handle.

(** [CFWrapper(const char *cStr, CFStringEncoding encoding)
      : CFWrapper(CFStringCreateWithCString(kCFAllocatorDefault, cStr, encoding)) {}]
    and, with the same shape, the constructors wrapping [CFNumberCreate],
    [CFArrayCreate], [CFArrayCreateMutable], [CFDictionaryCreate],
    [CFDictionaryCreateMutable] and [CFDataCreate]. *)
Definition ctor_create (this : addr) : M unit :=
  do object <- create;
  ctor_object this object.

(** [CFWrapper(CFDictionaryRef formatOptions, CFStringRef format, ...)
      : CFWrapper()
    { ... *this = CFStringCreateWithFormatAndArguments(...); ... }] *)
Definition ctor_format (this : addr) : M unit :=
  ctor_default this >>
  do object <- create;
  assign_raw this object.

End FactoryConstructors.

(** ** Reference accounting *)

(** The number of live wrappers that own a reference to [h]. *)
Definition owners (σ : world) (h : handle) : Z :=
  map_fold (λ _ w acc, owned_refs w h + acc) 0 (objs σ).

(** The references to [h] that the client hands over to a wrapper with the
    command [c]: the constructor from a raw handle adopts its argument when
    told to, and assignment of a raw handle adopts it unless it is the handle
    already held. *)
Definition adopted (c : cmd) (σ : world) (h : handle) : Z :=
  match c with
  | Construct _ object release => owned_refs (mkCFWrapper object release) h
  | AssignRaw this rhs =>
      match objs σ !! this with
      | Some w => if ptr_ne (mObject w) rhs then owned_refs (mkCFWrapper rhs true) h else 0
      | None => 0
      end
  | _ => 0
  end.

(** The references to [h] that a wrapper hands back to the client with the
    command [c]: [Relinquish] on an owner. *)
Definition surrendered (c : cmd) (σ : world) (h : handle) : Z :=
  match c with
  | DoRelinquish this =>
      match objs σ !! this with
      | Some w => owned_refs w h
      | None => 0
      end
  | _ => 0
  end.

(** Run a program; besides the final world, the net number of references to
    [h] that the client handed over to wrappers. *)
Fixpoint handed_over (h : handle) (prog : list cmd) (σ : world) : option (Z * world) :=
  match prog with
  | [] => Some (0, σ)
  | c :: prog =>
      match exec_cmd c σ with
      | Some (_, σ1) =>
          match handed_over h prog σ1 with
          | Some (n, σ') => Some (adopted c σ h - surrendered c σ h + n, σ')
          | None => None
          end
      | None => None
      end
  end.


(** The objects a command may write to: its target, and its source when it
    is a move. *)
Definition writes (c : cmd) (q : addr) : Prop :=
  q = target c
  ∨ match c with
    | MoveCtor _ rhs | AssignMove _ rhs => q = rhs
    | _ => False
    end.

(** ** Scopes of deferred closures *)

(** A block that declares the deferred closures [ds] one after the other,
    each given as the address of the object and the address of its callable,
    and then runs [body]: at the end of the block the objects are destroyed
    in the reverse order of their construction. *)
Fixpoint deferred_scope {Env : Type} (ds : list (addr * addr))
    (body : Deferred.state Env → option (Deferred.state Env))
    (s : Deferred.state Env) : option (Deferred.state Env) :=
  match ds with
  | [] => body s
  | (this, closure) :: ds =>
      match Deferred.ctor this closure s with
      | Some s1 =>
          match deferred_scope ds body s1 with
          | Some s2 => Deferred.dtor this s2
          | None => None
          end
      | None => None
      end
  end.

(** The commands that pass references between wrappers and the host only:
    copies, moves, assignments between wrappers and destruction. *)
Definition between_wrappers (c : cmd) : bool :=
  match c with
  | CopyCtor _ _ | MoveCtor _ _ | AssignCopy _ _ | AssignMove _ _ | Destroy _ => true
  | Construct _ _ _ | AssignRaw _ _ | DoRelinquish _ => false
  end.

(** The callables [cs] invoked one after the other on [e]. *)
Fixpoint apply_callables {Env : Type} (m : gmap addr (Env → Env)) (cs : list addr) (e : Env)
  : Env :=
  match cs with
  | [] => e
  | c :: cs => apply_callables m cs (match m !! c with Some f => f e | None => e end)
  end.
(** ** Symbolic execution of the methods

    For each method, the exact world it produces from a world in which the
    objects it touches are alive. *)

Lemma world_eta σ : mkWorld (objs σ) (refs σ) (calls σ) = σ.
Proof. by destruct σ. Qed.

Lemma owning_nonnull w : owning w = true → nonnull (mObject w) = true.
Proof. unfold owning. by intros [? _]%andb_prop. Qed.

Lemma owning_iff w : owning w = true ↔ mObject w ≠ nullptr ∧ mRelease w = true.
Proof.
  unfold owning, nonnull. rewrite andb_true_iff, negb_true_iff, N.eqb_neq.
  reflexivity.
Qed.

Lemma ptr_ne_true a b : ptr_ne a b = true ↔ a ≠ b.
Proof. unfold ptr_ne. by rewrite negb_true_iff, N.eqb_neq. Qed.

Lemma ptr_ne_false a b : ptr_ne a b = false ↔ a = b.
Proof. unfold ptr_ne. by rewrite negb_false_iff, N.eqb_eq. Qed.

Lemma bind_run {A B} (m : M A) (k : A → M B) σ a σ' :
  m σ = Some (a, σ') → bind m k σ = k a σ'.
Proof. unfold bind. by intros ->. Qed.

Lemma bind_assoc {A B C} (m : M A) (f : A → M B) (k : B → M C) σ :
  bind (bind m f) k σ = bind m (λ x, bind (f x) k) σ.
Proof. unfold bind. destruct (m σ) as [[a σ']|]; reflexivity. Qed.

Lemma get_mObject_run σ p w :
  objs σ !! p = Some w → get_mObject p σ = Some (mObject w, σ).
Proof. unfold get_mObject. by intros ->. Qed.

Lemma get_mRelease_run σ p w :
  objs σ !! p = Some w → get_mRelease p σ = Some (mRelease w, σ).
Proof. unfold get_mRelease. by intros ->. Qed.

Lemma set_mObject_run σ p w h :
  objs σ !! p = Some w →
  set_mObject p h σ
  = Some (tt, mkWorld (<[p := mkCFWrapper h (mRelease w)]> (objs σ)) (refs σ) (calls σ)).
Proof. unfold set_mObject. by intros ->. Qed.

Lemma set_mRelease_run σ p w b :
  objs σ !! p = Some w →
  set_mRelease p b σ
  = Some (tt, mkWorld (<[p := mkCFWrapper (mObject w) b]> (objs σ)) (refs σ) (calls σ)).
Proof. unfold set_mRelease. by intros ->. Qed.

Lemma init_run σ p h b :
  objs σ !! p = None →
  init p h b σ = Some (tt, mkWorld (<[p := mkCFWrapper h b]> (objs σ)) (refs σ) (calls σ)).
Proof. unfold init. by intros ->. Qed.

Lemma release_if_owned_run σ this w :
  objs σ !! this = Some w →
  release_if_owned this σ
  = Some (tt, mkWorld (objs σ) (refs_release w (refs σ)) (calls σ ++ release_calls w)).
Proof.
  intros Hw. unfold release_if_owned.
  rewrite (bind_run _ _ _ _ _ (get_mObject_run _ _ _ Hw)).
  rewrite (bind_run _ _ _ _ _ (get_mRelease_run _ _ _ Hw)).
  unfold refs_release, release_calls, when. fold (owning w).
  destruct (owning w) eqn:Ho.
  - unfold CFRelease. by rewrite (owning_nonnull _ Ho).
  - unfold ret. by rewrite app_nil_r, world_eta.
Qed.

Lemma retain_if_owned_run σ this w :
  objs σ !! this = Some w →
  retain_if_owned this σ
  = Some (tt, mkWorld (objs σ) (refs_retain w (refs σ)) (calls σ ++ retain_calls w)).
Proof.
  intros Hw. unfold retain_if_owned.
  rewrite (bind_run _ _ _ _ _ (get_mObject_run _ _ _ Hw)).
  rewrite (bind_run _ _ _ _ _ (get_mRelease_run _ _ _ Hw)).
  unfold refs_retain, retain_calls, when. fold (owning w).
  destruct (owning w) eqn:Ho.
  - unfold CFRetain. by rewrite (owning_nonnull _ Ho).
  - unfold ret. by rewrite app_nil_r, world_eta.
Qed.

(** One step of symbolic execution: the lookup a primitive performs is
    resolved against the current store. *)
Ltac lookup_now :=
  cbn [objs refs calls];
  repeat first
    [ rewrite lookup_insert_eq
    | rewrite lookup_insert_ne by congruence
    | rewrite lookup_delete_eq ];
  first [ eassumption | reflexivity ].

Ltac exec :=
  repeat first
    [ rewrite bind_assoc
    | erewrite bind_run by (apply get_mObject_run; lookup_now)
    | erewrite bind_run by (apply get_mRelease_run; lookup_now)
    | erewrite bind_run by (apply set_mObject_run; lookup_now)
    | erewrite bind_run by (apply set_mRelease_run; lookup_now)
    | erewrite bind_run by (apply release_if_owned_run; lookup_now)
    | erewrite bind_run by (apply retain_if_owned_run; lookup_now)
    | erewrite bind_run by (apply init_run; lookup_now) ];
  cbn [objs refs calls mObject mRelease].

Lemma ctor_run σ this h b :
  objs σ !! this = None →
  ctor this h b σ
  = Some (tt, mkWorld (<[this := mkCFWrapper h b]> (objs σ)) (refs σ) (calls σ)).
Proof. apply init_run. Qed.

Lemma copy_ctor_run σ this rhs r :
  objs σ !! this = None →
  objs σ !! rhs = Some r →
  copy_ctor this rhs σ
  = Some (tt, mkWorld (<[this := r]> (objs σ)) (refs_retain r (refs σ))
                      (calls σ ++ retain_calls r)).
Proof.
  intros Hthis Hrhs. unfold copy_ctor. exec.
  rewrite (retain_if_owned_run _ this r) by (destruct r; lookup_now).
  by destruct r.
Qed.

Lemma dtor_run σ this w :
  objs σ !! this = Some w →
  dtor this σ
  = Some (tt, mkWorld (<[this := mkCFWrapper nullptr (mRelease w)]> (objs σ))
                      (refs_release w (refs σ)) (calls σ ++ release_calls w)).
Proof.
  intros Hthis. unfold dtor. exec.
  by rewrite (set_mObject_run _ this w) by lookup_now.
Qed.

Lemma end_lifetime_run σ p w :
  objs σ !! p = Some w →
  end_lifetime p σ = Some (tt, mkWorld (delete p (objs σ)) (refs σ) (calls σ)).
Proof. unfold end_lifetime. by intros ->. Qed.

Lemma destroy_run σ this w :
  objs σ !! this = Some w →
  destroy this σ
  = Some (tt, mkWorld (delete this (objs σ))
                      (refs_release w (refs σ)) (calls σ ++ release_calls w)).
Proof.
  intros Hthis. unfold destroy.
  rewrite (bind_run _ _ _ _ _ (dtor_run _ _ _ Hthis)).
  erewrite end_lifetime_run by lookup_now.
  cbn [objs refs calls]. by rewrite delete_insert_eq.
Qed.

Lemma move_ctor_run σ this rhs r :
  objs σ !! this = None →
  objs σ !! rhs = Some r →
  move_ctor this rhs σ
  = Some (tt, mkWorld (<[rhs := mkCFWrapper nullptr (mRelease r)]> (<[this := r]> (objs σ)))
                      (refs σ) (calls σ)).
Proof.
  intros Hthis Hrhs. unfold move_ctor. exec.
  rewrite (set_mObject_run _ rhs r) by lookup_now.
  by destruct r.
Qed.

(** Two live objects whose handles differ are two objects. *)
Lemma distinct_objects σ (p q : addr) w r :
  objs σ !! p = Some w → objs σ !! q = Some r → mObject w ≠ mObject r → p ≠ q.
Proof. intros Hp Hq Hne ->. congruence. Qed.

Lemma assign_copy_same σ this rhs w r :
  objs σ !! this = Some w →
  objs σ !! rhs = Some r →
  mObject w = mObject r →
  assign_copy this rhs σ = Some (tt, σ).
Proof.
  intros Hthis Hrhs Heq. unfold assign_copy. exec.
  apply ptr_ne_false in Heq. by rewrite Heq.
Qed.

Lemma assign_copy_run σ this rhs w r :
  objs σ !! this = Some w →
  objs σ !! rhs = Some r →
  mObject w ≠ mObject r →
  assign_copy this rhs σ
  = Some (tt, mkWorld (<[this := r]> (objs σ))
                      (refs_retain r (refs_release w (refs σ)))
                      (calls σ ++ release_calls w ++ retain_calls r)).
Proof.
  intros Hthis Hrhs Hne. pose proof (distinct_objects _ _ _ _ _ Hthis Hrhs Hne).
  unfold assign_copy. exec.
  apply ptr_ne_true in Hne. rewrite Hne. cbn [when]. exec.
  rewrite (retain_if_owned_run _ this r) by (destruct r; lookup_now).
  cbn [objs refs calls]. rewrite insert_insert_eq, <- app_assoc. by destruct r.
Qed.

Lemma assign_move_same σ this rhs w r :
  objs σ !! this = Some w →
  objs σ !! rhs = Some r →
  mObject w = mObject r →
  assign_move this rhs σ = Some (tt, σ).
Proof.
  intros Hthis Hrhs Heq. unfold assign_move. exec.
  apply ptr_ne_false in Heq. by rewrite Heq.
Qed.

Lemma assign_move_run σ this rhs w r :
  objs σ !! this = Some w →
  objs σ !! rhs = Some r →
  mObject w ≠ mObject r →
  assign_move this rhs σ
  = Some (tt, mkWorld (<[rhs := mkCFWrapper nullptr (mRelease r)]> (<[this := r]> (objs σ)))
                      (refs_release w (refs σ))
                      (calls σ ++ release_calls w)).
Proof.
  intros Hthis Hrhs Hne. pose proof (distinct_objects _ _ _ _ _ Hthis Hrhs Hne).
  unfold assign_move. exec.
  apply ptr_ne_true in Hne. rewrite Hne. cbn [when]. exec.
  rewrite (set_mObject_run _ rhs r) by lookup_now.
  cbn [objs refs calls]. rewrite insert_insert_eq. by destruct r.
Qed.

Lemma assign_raw_same σ this w :
  objs σ !! this = Some w →
  assign_raw this (mObject w) σ = Some (tt, σ).
Proof.
  intros Hthis. unfold assign_raw. exec.
  by rewrite (proj2 (ptr_ne_false _ _) eq_refl).
Qed.

Lemma assign_raw_run σ this w h :
  objs σ !! this = Some w →
  mObject w ≠ h →
  assign_raw this h σ
  = Some (tt, mkWorld (<[this := mkCFWrapper h true]> (objs σ))
                      (refs_release w (refs σ))
                      (calls σ ++ release_calls w)).
Proof.
  intros Hthis Hne. unfold assign_raw. exec.
  apply ptr_ne_true in Hne. rewrite Hne. cbn [when]. exec.
  rewrite (set_mRelease_run _ this (mkCFWrapper h (mRelease w))) by lookup_now.
  cbn [objs refs calls mObject]. by rewrite insert_insert_eq.
Qed.

Lemma Relinquish_run σ this w :
  objs σ !! this = Some w →
  Relinquish this σ
  = Some (mObject w,
          mkWorld (<[this := mkCFWrapper nullptr (mRelease w)]> (objs σ)) (refs σ) (calls σ)).
Proof. intros Hthis. unfold Relinquish. by exec. Qed.

(** Reference counts after the guarded release or retain of [w]. *)
Lemma refcount_release w rf h :
  refcount (refs_release w rf) h
  = if owning w && (mObject w =? h)%N then refcount rf h - 1 else refcount rf h.
Proof.
  unfold refcount, refs_release. destruct (owning w); [|done].
  cbn [andb]. destruct (N.eqb_spec (mObject w) h) as [->|Hne].
  - by rewrite lookup_insert_eq.
  - by rewrite lookup_insert_ne.
Qed.

Lemma refcount_retain w rf h :
  refcount (refs_retain w rf) h
  = if owning w && (mObject w =? h)%N then refcount rf h + 1 else refcount rf h.
Proof.
  unfold refcount, refs_retain. destruct (owning w); [|done].
  cbn [andb]. destruct (N.eqb_spec (mObject w) h) as [->|Hne].
  - by rewrite lookup_insert_eq.
  - by rewrite lookup_insert_ne.
Qed.

Lemma R_release w σ' σ h :
  refs σ' = refs_release w (refs σ) →
  R σ' h = if owning w && (mObject w =? h)%N then R σ h - 1 else R σ h.
Proof. unfold R. intros ->. apply refcount_release. Qed.

Lemma R_retain w σ' σ h :
  refs σ' = refs_retain w (refs σ) →
  R σ' h = if owning w && (mObject w =? h)%N then R σ h + 1 else R σ h.
Proof. unfold R. intros ->. apply refcount_retain. Qed.

Lemma op_eq_run host_equal σ this rhs a b :
  objs σ !! this = Some a →
  objs σ !! rhs = Some b →
  op_eq host_equal this rhs σ
  = if (mObject a =? mObject b)%N then Some (true, σ)
    else if negb (nonnull (mObject a)) || negb (nonnull (mObject b)) then Some (false, σ)
    else Some (host_equal (mObject a) (mObject b),
               mkWorld (objs σ) (refs σ) (calls σ ++ [Equal (mObject a) (mObject b)])).
Proof.
  intros Hthis Hrhs. unfold op_eq. exec.
  destruct (mObject a =? mObject b)%N; [done|].
  destruct (nonnull (mObject a)) eqn:Ha, (nonnull (mObject b)) eqn:Hb; cbn; try done.
  unfold CFEqual. by rewrite Ha, Hb.
Qed.

Lemma state_of_Owning w h :
  state_of w = Owning h ↔ w = mkCFWrapper h true ∧ h ≠ nullptr.
Proof.
  destruct w as [o r]. unfold state_of, nonnull. cbn.
  destruct (N.eqb_spec o nullptr) as [->|Hne]; cbn.
  - split; [done|]. intros [[= <- _] ?]. done.
  - destruct r; split; try done.
    + intros [= ->]. done.
    + intros [[= -> ] _]. done.
    + intros [[= ] _].
Qed.

Lemma state_of_Owning_owning w h : state_of w = Owning h → owning w = true ∧ mObject w = h.
Proof. intros [-> Hh]%state_of_Owning. split; [|done]. by apply owning_iff. Qed.

Lemma state_of_Borrowing w h :
  state_of w = Borrowing h ↔ w = mkCFWrapper h false ∧ h ≠ nullptr.
Proof.
  destruct w as [o r]. unfold state_of, nonnull. cbn.
  destruct (N.eqb_spec o nullptr) as [->|Hne]; cbn.
  - split; [done|]. intros [[= <- _] ?]. done.
  - destruct r; split; try done.
    + intros [[= ] _].
    + intros [= ->]. done.
    + intros [[= -> ] _]. done.
Qed.

Lemma state_of_Empty w : state_of w = Empty ↔ mObject w = nullptr.
Proof.
  destruct w as [o r]. unfold state_of, nonnull. cbn.
  destruct (N.eqb_spec o nullptr) as [->|Hne]; cbn; [done|].
  destruct r; split; done.
Qed.

Lemma not_Owning_not_owning w : (∀ h, state_of w ≠ Owning h) → owning w = false.
Proof.
  intros Hs. destruct (owning w) eqn:Ho; [|done].
  apply owning_iff in Ho as [Hn Hr]. destruct (Hs (mObject w)).
  apply state_of_Owning. by destruct w; cbn in *; subst.
Qed.

(** ** Traces and destruction *)

(** Destroying a live object whose members are [w]: the observable outcome. *)
Lemma destroy_outcome σ p w :
  objs σ !! p = Some w →
  ∃ σ', destroy p σ = Some (tt, σ')
      ∧ objs σ' = delete p (objs σ)
      ∧ calls σ' = calls σ ++ release_calls w
      ∧ refs σ' = refs_release w (refs σ).
Proof. intros Hp. eexists. split; [by apply destroy_run|]. done. Qed.

Lemma release_calls_owning w : owning w = true → release_calls w = [Release (mObject w)].
Proof. unfold release_calls. by intros ->. Qed.

Lemma release_calls_not_owning w : owning w = false → release_calls w = [].
Proof. unfold release_calls. by intros ->. Qed.

Lemma refs_release_not_owning w rf : owning w = false → refs_release w rf = rf.
Proof. unfold refs_release. by intros ->. Qed.

Lemma new_calls_app σ σ' t : calls σ' = calls σ ++ t → new_calls σ σ' = t.
Proof. unfold new_calls. intros ->. by rewrite drop_app_length. Qed.

Lemma retained_app t1 t2 : retained (t1 ++ t2) = retained t1 ++ retained t2.
Proof. apply omap_app. Qed.

Lemma released_app t1 t2 : released (t1 ++ t2) = released t1 ++ released t2.
Proof. apply omap_app. Qed.

Lemma retained_release_calls w : retained (release_calls w) = [].
Proof. unfold release_calls. by destruct (owning w). Qed.

Lemma retain_calls_owning w : owning w = true → retain_calls w = [Retain (mObject w)].
Proof. unfold retain_calls. by intros ->. Qed.

(** Destroying a live object that owns its handle releases exactly that one
    reference. *)
Lemma destroy_owning σ p w :
  objs σ !! p = Some w →
  owning w = true →
  ∃ σ', destroy p σ = Some (tt, σ')
      ∧ calls σ' = calls σ ++ [Release (mObject w)]
      ∧ R σ' (mObject w) = R σ (mObject w) - 1.
Proof.
  intros Hp Ho. destruct (destroy_outcome _ _ _ Hp) as (σ' & Hrun & _ & Hc & Hr).
  exists σ'. split; [done|]. split.
  - by rewrite Hc, release_calls_owning.
  - rewrite (R_release _ _ _ _ Hr), Ho. cbn. by rewrite N.eqb_refl.
Qed.

(** Destroying a live object that does not own its handle makes no host call. *)
Lemma destroy_not_owning σ p w :
  objs σ !! p = Some w →
  owning w = false →
  ∃ σ', destroy p σ = Some (tt, σ') ∧ calls σ' = calls σ ∧ refs σ' = refs σ.
Proof.
  intros Hp Ho. destruct (destroy_outcome _ _ _ Hp) as (σ' & Hrun & _ & Hc & Hr).
  exists σ'. split; [done|]. split.
  - by rewrite Hc, release_calls_not_owning, app_nil_r.
  - by rewrite Hr, refs_release_not_owning.
Qed.


(** After a copy, the source and the copy each hold one reference: destroying
    both leaves the count one below its value before the copy, the reference
    that the source held then being released as well. *)
Lemma copy_ctor_then_destroy_both σ this rhs r :
  objs σ !! this = None →
  objs σ !! rhs = Some r →
  owning r = true →
  ∃ σ', (copy_ctor this rhs >> destroy this >> destroy rhs) σ = Some (tt, σ')
      ∧ calls σ' = calls σ ++ [Retain (mObject r); Release (mObject r); Release (mObject r)]
      ∧ R σ' (mObject r) = R σ (mObject r) - 1.
Proof.
  intros Hthis Hrhs Ho. assert (this ≠ rhs) by congruence.
  rewrite (bind_run _ _ _ _ _ (copy_ctor_run _ _ _ _ Hthis Hrhs)).
  erewrite bind_run by (apply (destroy_run _ this r); cbn; by rewrite lookup_insert_eq).
  erewrite (destroy_run _ rhs r)
    by (cbn; by rewrite lookup_delete_ne, lookup_insert_ne).
  eexists. split; [done|]. cbn [calls refs]. unfold R. cbn [refs].
  rewrite !refcount_release, refcount_retain, Ho, N.eqb_refl. cbn [andb].
  rewrite release_calls_owning, retain_calls_owning by done.
  rewrite <- !app_assoc. split; [done|lia].
Qed.

(** ** One step of a program

    What a command that ran to completion did: its operands were alive (or
    fresh, for a constructor) and the resulting world is the one computed
    above. *)

Ltac stuck Hrun :=
  exfalso; revert Hrun;
  unfold ctor, copy_ctor, move_ctor, assign_copy, assign_move, assign_raw,
    Relinquish, destroy, dtor, release_if_owned, bind,
    get_mObject, get_mRelease, init;
  repeat match goal with
         | H : objs _ !! _ = _ |- _ => rewrite H; cbn [objs mObject mRelease]
         end;
  discriminate.

Lemma ctor_inv σ this h b u σ1 :
  ctor this h b σ = Some (u, σ1) →
  objs σ !! this = None
  ∧ σ1 = mkWorld (<[this := mkCFWrapper h b]> (objs σ)) (refs σ) (calls σ).
Proof.
  intros Hrun. destruct (objs σ !! this) as [w|] eqn:Hthis; [stuck Hrun|].
  rewrite (ctor_run _ _ _ _ Hthis) in Hrun. by injection Hrun as _ <-.
Qed.

Lemma copy_ctor_inv σ this rhs u σ1 :
  copy_ctor this rhs σ = Some (u, σ1) →
  objs σ !! this = None
  ∧ ∃ r, objs σ !! rhs = Some r
       ∧ σ1 = mkWorld (<[this := r]> (objs σ)) (refs_retain r (refs σ))
                      (calls σ ++ retain_calls r).
Proof.
  intros Hrun. destruct (objs σ !! rhs) as [r|] eqn:Hrhs; [|stuck Hrun].
  destruct (objs σ !! this) as [w|] eqn:Hthis; [stuck Hrun|].
  rewrite (copy_ctor_run _ _ _ _ Hthis Hrhs) in Hrun. injection Hrun as _ <-. eauto.
Qed.

Lemma move_ctor_inv σ this rhs u σ1 :
  move_ctor this rhs σ = Some (u, σ1) →
  objs σ !! this = None
  ∧ ∃ r, objs σ !! rhs = Some r
       ∧ σ1 = mkWorld (<[rhs := mkCFWrapper nullptr (mRelease r)]> (<[this := r]> (objs σ)))
                      (refs σ) (calls σ).
Proof.
  intros Hrun. destruct (objs σ !! rhs) as [r|] eqn:Hrhs; [|stuck Hrun].
  destruct (objs σ !! this) as [w|] eqn:Hthis; [stuck Hrun|].
  rewrite (move_ctor_run _ _ _ _ Hthis Hrhs) in Hrun. injection Hrun as _ <-. eauto.
Qed.

Lemma assign_copy_inv σ this rhs u σ1 :
  assign_copy this rhs σ = Some (u, σ1) →
  ∃ w r, objs σ !! this = Some w ∧ objs σ !! rhs = Some r
       ∧ ((mObject w = mObject r ∧ σ1 = σ)
          ∨ (mObject w ≠ mObject r
             ∧ σ1 = mkWorld (<[this := r]> (objs σ))
                            (refs_retain r (refs_release w (refs σ)))
                            (calls σ ++ release_calls w ++ retain_calls r))).
Proof.
  intros Hrun. destruct (objs σ !! this) as [w|] eqn:Hthis; [|stuck Hrun].
  destruct (objs σ !! rhs) as [r|] eqn:Hrhs; [|stuck Hrun].
  exists w, r. do 2 (split; [done|]).
  destruct (decide (mObject w = mObject r)) as [Heq|Hne].
  - rewrite (assign_copy_same _ _ _ _ _ Hthis Hrhs Heq) in Hrun.
    injection Hrun as _ <-. by left.
  - rewrite (assign_copy_run _ _ _ _ _ Hthis Hrhs Hne) in Hrun.
    injection Hrun as _ <-. by right.
Qed.

Lemma assign_move_inv σ this rhs u σ1 :
  assign_move this rhs σ = Some (u, σ1) →
  ∃ w r, objs σ !! this = Some w ∧ objs σ !! rhs = Some r
       ∧ ((mObject w = mObject r ∧ σ1 = σ)
          ∨ (mObject w ≠ mObject r
             ∧ σ1 = mkWorld (<[rhs := mkCFWrapper nullptr (mRelease r)]>
                               (<[this := r]> (objs σ)))
                            (refs_release w (refs σ))
                            (calls σ ++ release_calls w))).
Proof.
  intros Hrun. destruct (objs σ !! this) as [w|] eqn:Hthis; [|stuck Hrun].
  destruct (objs σ !! rhs) as [r|] eqn:Hrhs; [|stuck Hrun].
  exists w, r. do 2 (split; [done|]).
  destruct (decide (mObject w = mObject r)) as [Heq|Hne].
  - rewrite (assign_move_same _ _ _ _ _ Hthis Hrhs Heq) in Hrun.
    injection Hrun as _ <-. by left.
  - rewrite (assign_move_run _ _ _ _ _ Hthis Hrhs Hne) in Hrun.
    injection Hrun as _ <-. by right.
Qed.

Lemma assign_raw_inv σ this h u σ1 :
  assign_raw this h σ = Some (u, σ1) →
  ∃ w, objs σ !! this = Some w
     ∧ ((mObject w = h ∧ σ1 = σ)
        ∨ (mObject w ≠ h
           ∧ σ1 = mkWorld (<[this := mkCFWrapper h true]> (objs σ))
                          (refs_release w (refs σ))
                          (calls σ ++ release_calls w))).
Proof.
  intros Hrun. destruct (objs σ !! this) as [w|] eqn:Hthis; [|stuck Hrun].
  exists w. split; [done|].
  destruct (decide (mObject w = h)) as [<-|Hne].
  - rewrite (assign_raw_same _ _ _ Hthis) in Hrun. injection Hrun as _ <-. by left.
  - rewrite (assign_raw_run _ _ _ _ Hthis Hne) in Hrun. injection Hrun as _ <-. by right.
Qed.

Lemma Relinquish_inv σ this o σ1 :
  Relinquish this σ = Some (o, σ1) →
  ∃ w, objs σ !! this = Some w
     ∧ o = mObject w
     ∧ σ1 = mkWorld (<[this := mkCFWrapper nullptr (mRelease w)]> (objs σ))
                    (refs σ) (calls σ).
Proof.
  intros Hrun. destruct (objs σ !! this) as [w|] eqn:Hthis; [|stuck Hrun].
  rewrite (Relinquish_run _ _ _ Hthis) in Hrun. injection Hrun as <- <-. eauto.
Qed.

Lemma destroy_inv σ this u σ1 :
  destroy this σ = Some (u, σ1) →
  ∃ w, objs σ !! this = Some w
     ∧ σ1 = mkWorld (delete this (objs σ)) (refs_release w (refs σ))
                    (calls σ ++ release_calls w).
Proof.
  intros Hrun. destruct (objs σ !! this) as [w|] eqn:Hthis; [|stuck Hrun].
  rewrite (destroy_run _ _ _ Hthis) in Hrun. injection Hrun as _ <-. eauto.
Qed.

Lemma released_release_calls w :
  released (release_calls w) = if owning w then [mObject w] else [].
Proof. unfold release_calls. by destruct (owning w). Qed.

Lemma released_retain_calls w : released (retain_calls w) = [].
Proof. unfold retain_calls. by destruct (owning w). Qed.

Lemma new_calls_none σ σ' : calls σ' = calls σ → new_calls σ σ' = [].
Proof. unfold new_calls. intros ->. apply drop_all. Qed.

Lemma holds_insert_this σ' σ (a : addr) w h refs' calls' :
  σ' = mkWorld (<[a := w]> (objs σ)) refs' calls' →
  holds σ' a h = owning w && (mObject w =? h)%N.
Proof. intros ->. unfold holds. cbn. by rewrite lookup_insert_eq. Qed.

(** A release is paid for by an ownership: whenever a command issues a
    [CFRelease], it issues exactly one, on the handle that its target owned
    before the command, and the target no longer owns that handle after
    it. *)
Lemma release_consumes_ownership c σ u σ1 :
  exec_cmd c σ = Some (u, σ1) →
  released (new_calls σ σ1) = []
  ∨ ∃ w, objs σ !! target c = Some w
       ∧ owning w = true
       ∧ released (new_calls σ σ1) = [mObject w]
       ∧ holds σ1 (target c) (mObject w) = false.
Proof.
  assert (Hrel : ∀ this w (σ' : world) t,
            objs σ !! this = Some w →
            calls σ' = calls σ ++ release_calls w ++ t →
            released t = [] →
            holds σ' this (mObject w) = false →
            released (new_calls σ σ') = []
            ∨ ∃ w, objs σ !! this = Some w ∧ owning w = true
                 ∧ released (new_calls σ σ') = [mObject w]
                 ∧ holds σ' this (mObject w) = false).
  { intros this w σ' t Hthis Hc Ht Hh. rewrite (new_calls_app _ _ _ Hc).
    rewrite released_app, released_release_calls, Ht.
    destruct (owning w) eqn:Ho; [right|by left]. exists w. by rewrite app_nil_r. }
  destruct c as [this h b|this rhs|this rhs|this rhs|this rhs|this h|this|this];
    cbn [exec_cmd target]; intros Hrun.
  - apply ctor_inv in Hrun as [_ ->]. left. by rewrite new_calls_none.
  - apply copy_ctor_inv in Hrun as (_ & r & _ & ->). left.
    rewrite (new_calls_app _ _ (retain_calls r)) by done. apply released_retain_calls.
  - apply move_ctor_inv in Hrun as (_ & r & _ & ->). left.
    by rewrite new_calls_none.
  - apply assign_copy_inv in Hrun as (w & r & Hthis & Hrhs & [[_ ->]|[Hne ->]]).
    { left. by rewrite new_calls_none. }
    apply (Hrel this w _ (retain_calls r)); [done|done|apply released_retain_calls|].
    erewrite holds_insert_this by done.
    apply not_eq_sym, N.eqb_neq in Hne. by rewrite Hne, andb_false_r.
  - apply assign_move_inv in Hrun as (w & r & Hthis & Hrhs & [[_ ->]|[Hne ->]]).
    { left. by rewrite new_calls_none. }
    pose proof (distinct_objects _ _ _ _ _ Hthis Hrhs Hne).
    apply (Hrel this w _ []); [done|by rewrite app_nil_r|done|].
    unfold holds. cbn. rewrite lookup_insert_ne, lookup_insert_eq by done.
    apply not_eq_sym, N.eqb_neq in Hne. by rewrite Hne, andb_false_r.
  - apply assign_raw_inv in Hrun as (w & Hthis & [[_ ->]|[Hne ->]]).
    { left. by rewrite new_calls_none. }
    apply (Hrel this w _ []); [done|by rewrite app_nil_r|done|].
    erewrite holds_insert_this by done. cbn.
    apply not_eq_sym, N.eqb_neq in Hne. by rewrite Hne, andb_false_r.
  - unfold bind in Hrun. destruct (Relinquish this σ) as [[o σ']|] eqn:HR; [|done].
    injection Hrun as _ <-. apply Relinquish_inv in HR as (w & _ & _ & ->).
    left. by rewrite new_calls_none.
  - apply destroy_inv in Hrun as (w & Hthis & ->).
    apply (Hrel this w _ []); [done|by rewrite app_nil_r|done|].
    unfold holds. cbn. by rewrite lookup_delete_eq.
Qed.

(** The books of any object balance over one step: a release is matched by an
    ownership held before the step, and an ownership held after the step was
    either held before or acquired in it. *)
Lemma step_books a h c σ u σ1 :
  exec_cmd c σ = Some (u, σ1) →
  (released_by a h c σ σ1 + holds_count σ1 a h
   ≤ acquired a h σ σ1 + holds_count σ a h)%nat.
Proof.
  intros Hrun. unfold released_by, acquired, holds_count.
  destruct (decide (target c = a)) as [<-|_].
  - destruct (release_consumes_ownership _ _ _ _ Hrun)
      as [->|(w & Hw & Ho & -> & Hafter)].
    + cbn. destruct (holds σ (target c) h), (holds σ1 (target c) h); cbn; lia.
    + cbn. destruct (decide (mObject w = h)) as [<-|Hne]; cbn.
      * rewrite Hafter. unfold holds. rewrite Hw, Ho, N.eqb_refl. cbn. lia.
      * destruct (holds σ (target c) h), (holds σ1 (target c) h); cbn; lia.
  - destruct (holds σ a h), (holds σ1 a h); cbn; lia.
Qed.

(** ** Whole programs *)

Lemma audit_app a h p1 p2 σ :
  audit a h (p1 ++ p2) σ
  = match audit a h p1 σ with
    | Some (acq1, rel1, σ1) =>
        match audit a h p2 σ1 with
        | Some (acq2, rel2, σ') => Some (acq1 + acq2, rel1 + rel2, σ')%nat
        | None => None
        end
    | None => None
    end.
Proof.
  revert σ. induction p1 as [|c p1 IH]; intros σ; cbn [app audit].
  - by destruct (audit a h p2 σ) as [[[acq rel] σ']|].
  - destruct (exec_cmd c σ) as [[u σ1]|]; [|done]. rewrite IH.
    destruct (audit a h p1 σ1) as [[[acq1 rel1] σ2]|]; [|done].
    destruct (audit a h p2 σ2) as [[[acq2 rel2] σ']|]; [|done].
    by rewrite !Nat.add_assoc.
Qed.

(** The books balance over a whole program. *)
Lemma audit_books a h prog : ∀ σ acq rel σ',
  audit a h prog σ = Some (acq, rel, σ') →
  (rel + holds_count σ' a h ≤ acq + holds_count σ a h)%nat.
Proof.
  induction prog as [|c prog IH]; intros σ acq rel σ'; cbn [audit].
  - intros [= <- <- <-]. lia.
  - destruct (exec_cmd c σ) as [[u σ1]|] eqn:Hstep; [|done].
    destruct (audit a h prog σ1) as [[[acq1 rel1] σ2]|] eqn:Hrest; [|done].
    intros [= <- <- <-].
    pose proof (step_books a h _ _ _ _ Hstep). pose proof (IH _ _ _ _ Hrest). lia.
Qed.

Lemma holds_count_le_1 σ a h : (holds_count σ a h ≤ 1)%nat.
Proof. unfold holds_count. destruct (holds σ a h); lia. Qed.

(** ** The scenarios of the specification, run on the model *)

(** A default-constructed wrapper is empty and is destroyed silently. *)
Example default_wrapper_is_silent :
  (ctor_default 1 >> do b <- op_bool 1; destroy 1 >> ret b) fresh_object
  = Some (false, fresh_object).
Proof. vm_compute. reflexivity. Qed.

(** S2: [A] adopts the object, [B] is copy-constructed from [A]; they compare
    equal without asking the host; destroying [B] leaves [A] valid, destroying
    [A] releases the object. *)
Example scenario_copy :
  (ctor_object 1 7 >>
   copy_ctor 2 1 >>
   do e <- op_eq (λ _ _, false) 1 2;
   destroy 2 >>
   do valid <- op_bool 1;
   destroy 1 >>
   ret (e, valid)) fresh_object
  = Some ((true, true), mkWorld ∅ {[ 7%N := 0 ]} [Retain 7; Release 7; Release 7]).
Proof. vm_compute. reflexivity. Qed.

(** S3: after [Relinquish] the wrapper is empty, and its destruction leaves
    the reference count of the object at 1. *)
Example scenario_relinquish :
  (ctor_object 1 7 >>
   do h <- Relinquish 1;
   do valid <- op_bool 1;
   destroy 1 >>
   ret (h, valid)) fresh_object
  = Some ((7%N, false), fresh_object).
Proof. vm_compute. reflexivity. Qed.

(** S4: after a move the source is empty and destroyed silently; destroying
    the destination releases the object. *)
Example scenario_move :
  (ctor_object 1 7 >>
   move_ctor 2 1 >>
   do a <- op_bool 1;
   do b <- op_bool 2;
   destroy 1 >>
   destroy 2 >>
   ret (a, b)) fresh_object
  = Some ((false, true), mkWorld ∅ {[ 7%N := 0 ]} [Release 7]).
Proof. vm_compute. reflexivity. Qed.

(** S6: three deferred closures, each appending its token to a shared list,
    destroyed in reverse order of construction. *)
Example scenario_deferred_order :
  let append (token : nat) (l : list nat) := l ++ [token] in
  let s := Deferred.mkState []
             {[ 11%positive := append 1%nat; 12%positive := append 2%nat;
                13%positive := append 3%nat ]} ∅ [] in
  let step (acc : option (Deferred.state (list nat))) op :=
    match acc with Some x => op x | None => None end in
  option_map Deferred.env
    (fold_left step
       [Deferred.ctor 1 11; Deferred.ctor 2 12; Deferred.ctor 3 13;
        Deferred.dtor 3; Deferred.dtor 2; Deferred.dtor 1] (Some s))
  = Some [3; 2; 1]%nat.
Proof. vm_compute. reflexivity. Qed.

(** ** Construction, destruction *)

(** C1: for a non-empty handle [h], the constructor [CFWrapper(h, true)]
    stores [h] with [mRelease = true] and makes no host call, so the reference
    count of [h] is unchanged; destroying that wrapper then lowers the count
    by one.  Destroying any wrapper releases exactly one reference if and only
    if its handle is non-empty and [mRelease] is true; an Empty or Borrowing
    wrapper is destroyed without any host call. *)
Theorem adopt_no_retain_destroy_releases_iff_owning
    (σ : world) (this : addr) (h : handle) (σd : world) (p : addr) (w : CFWrapper) :
  h ≠ nullptr →
  objs σ !! this = None →
  objs σd !! p = Some w →
  (∃ σ1, ctor this h true σ = Some (tt, σ1)
       ∧ objs σ1 !! this = Some (mkCFWrapper h true)
       ∧ calls σ1 = calls σ
       ∧ R σ1 h = R σ h
       ∧ ∃ σ2, destroy this σ1 = Some (tt, σ2)
             ∧ calls σ2 = calls σ ++ [Release h]
             ∧ R σ2 h = R σ h - 1)
  ∧ (∃ σ' t, destroy p σd = Some (tt, σ')
       ∧ calls σ' = calls σd ++ t
       ∧ (length (released t) = 1%nat ↔ mObject w ≠ nullptr ∧ mRelease w = true)
       ∧ (mObject w ≠ nullptr ∧ mRelease w = true →
            t = [Release (mObject w)] ∧ R σ' (mObject w) = R σd (mObject w) - 1)
       ∧ (state_of w = Empty ∨ state_of w = Borrowing (mObject w) →
            t = [] ∧ refs σ' = refs σd)).
Proof.
  intros Hh Hfresh Hp. split.
  - eexists. split; [by apply ctor_run|]. cbn [objs refs calls].
    split; [by rewrite lookup_insert_eq|]. split; [done|]. split; [done|].
    set (σ1 := mkWorld _ _ _).
    assert (Hlive : objs σ1 !! this = Some (mkCFWrapper h true))
      by (subst σ1; cbn; by rewrite lookup_insert_eq).
    destruct (destroy_outcome _ _ _ Hlive) as (σ2 & Hrun & _ & Hc & Hr).
    assert (Ho : owning (mkCFWrapper h true) = true) by by apply owning_iff.
    exists σ2. split; [done|]. split.
    + by rewrite Hc, (release_calls_owning _ Ho).
    + rewrite (R_release _ _ _ h Hr), Ho. cbn. by rewrite N.eqb_refl.
  - destruct (destroy_outcome _ _ _ Hp) as (σ' & Hrun & _ & Hc & Hr).
    exists σ', (release_calls w). split; [done|]. split; [done|].
    destruct (owning w) eqn:Ho.
    + rewrite (release_calls_owning _ Ho). apply owning_iff in Ho as Ho'.
      split; [done|]. split.
      * intros _. split; [done|].
        rewrite (R_release _ _ _ (mObject w) Hr), Ho. cbn. by rewrite N.eqb_refl.
      * intros [He|Hb].
        -- apply state_of_Empty in He. by destruct Ho'.
        -- apply state_of_Borrowing in Hb as [Hw _]. rewrite Hw in Ho'.
           by destruct Ho'.
    + rewrite (release_calls_not_owning _ Ho).
      assert (Hno : ¬ (mObject w ≠ nullptr ∧ mRelease w = true))
        by (rewrite <- owning_iff; congruence).
      split; [split; [done|by intros ?]|]. split; [by intros ?|].
      intros _. split; [done|]. by rewrite Hr, refs_release_not_owning.
Qed.

(** C1, at a concrete input. *)
Lemma adopt_no_retain_destroy_releases_iff_owning_witness :
  let σ := mkWorld ∅ {[ 7%N := 1 ]} [] in
  let σd := mkWorld {[ 2%positive := mkCFWrapper 7 false ]} {[ 7%N := 1 ]} [] in
  (∃ σ1, ctor 1 7 true σ = Some (tt, σ1)
       ∧ objs σ1 !! 1%positive = Some (mkCFWrapper 7 true)
       ∧ calls σ1 = calls σ
       ∧ R σ1 7 = R σ 7
       ∧ ∃ σ2, destroy 1 σ1 = Some (tt, σ2)
             ∧ calls σ2 = calls σ ++ [Release 7]
             ∧ R σ2 7 = R σ 7 - 1)
  ∧ (∃ σ' t, destroy 2 σd = Some (tt, σ')
       ∧ calls σ' = calls σd ++ t
       ∧ (length (released t) = 1%nat ↔ 7%N ≠ nullptr ∧ false = true)
       ∧ (7%N ≠ nullptr ∧ false = true →
            t = [Release 7] ∧ R σ' 7 = R σd 7 - 1)
       ∧ (state_of (mkCFWrapper 7 false) = Empty
          ∨ state_of (mkCFWrapper 7 false) = Borrowing 7 →
            t = [] ∧ refs σ' = refs σd)).
Proof.
  intros σ σd.
  apply (adopt_no_retain_destroy_releases_iff_owning
           σ 1%positive 7%N σd 2%positive (mkCFWrapper 7 false)).
  - discriminate.
  - reflexivity.
  - reflexivity.
Defined.

(** ** Copies *)

(** C2, as stated, fails: copy assignment from an owning wrapper onto a
    wrapper that already holds the same handle is skipped by the guard
    [if(mObject != rhs.mObject)].  Here the target at address 1 borrows
    handle 7 and the source at address 2 owns it: the assignment issues no
    [CFRetain], the count of 7 stays at 1, and the target, left borrowing,
    releases nothing when destroyed. *)
Lemma copy_assign_same_handle_retains_nothing :
  let σ := mkWorld {[ 1%positive := mkCFWrapper 7 false; 2%positive := mkCFWrapper 7 true ]}
                   {[ 7%N := 1 ]} [] in
  objs σ !! 2%positive = Some (mkCFWrapper 7 true)
  ∧ owning (mkCFWrapper 7 true) = true
  ∧ assign_copy 1 2 σ = Some (tt, σ)
  ∧ ¬ (∃ σ', assign_copy 1 2 σ = Some (tt, σ')
           ∧ retained (new_calls σ σ') = [7%N]
           ∧ R σ' 7 = R σ 7 + 1)
  ∧ ∃ σ', destroy 1 σ = Some (tt, σ') ∧ released (new_calls σ σ') = [].
Proof.
  intros σ.
  assert (Hrun : assign_copy 1 2 σ = Some (tt, σ)) by (vm_compute; reflexivity).
  split; [reflexivity|]. split; [reflexivity|]. split; [exact Hrun|]. split.
  - intros (σ' & Hrun' & Hret & _). rewrite Hrun in Hrun'.
    injection Hrun' as <-. vm_compute in Hret. discriminate.
  - eexists. split; [vm_compute; reflexivity|]. vm_compute. reflexivity.
Qed.

(** C2, amended: a copy made from a wrapper that owns a non-empty handle [h],
    by the copy constructor, or by copy assignment onto a wrapper whose
    current handle is not [h], issues exactly one [CFRetain(h)]: the count of
    [h] grows by exactly one, both wrappers then hold [h] with
    [mRelease = true], and destroying either of them releases exactly one
    reference to [h]. *)
Theorem copy_retains_exactly_once
    (k : copy_kind) (σ : world) (this rhs : addr) (r : CFWrapper) :
  objs σ !! rhs = Some r →
  owning r = true →
  copy_target k σ this r →
  ∃ σ', copy k this rhs σ = Some (tt, σ')
      ∧ retained (new_calls σ σ') = [mObject r]
      ∧ R σ' (mObject r) = R σ (mObject r) + 1
      ∧ objs σ' !! this = Some r
      ∧ objs σ' !! rhs = Some r
      ∧ (∃ σ'', destroy this σ' = Some (tt, σ'')
              ∧ new_calls σ' σ'' = [Release (mObject r)]
              ∧ R σ'' (mObject r) = R σ' (mObject r) - 1)
      ∧ (∃ σ'', destroy rhs σ' = Some (tt, σ'')
              ∧ new_calls σ' σ'' = [Release (mObject r)]
              ∧ R σ'' (mObject r) = R σ' (mObject r) - 1).
Proof.
  intros Hrhs Ho Htarget.
  assert (Hdestroy : ∀ σ' q, objs σ' !! q = Some r →
            ∃ σ'', destroy q σ' = Some (tt, σ'')
                 ∧ new_calls σ' σ'' = [Release (mObject r)]
                 ∧ R σ'' (mObject r) = R σ' (mObject r) - 1).
  { intros σ' q Hq. destruct (destroy_owning _ _ _ Hq Ho) as (σ'' & ? & Hc & ?).
    exists σ''. split; [done|]. split; [by apply new_calls_app|done]. }
  destruct k; cbn [copy copy_target] in *.
  - assert (this ≠ rhs) by congruence.
    eexists. split; [by apply copy_ctor_run|].
    set (σ' := mkWorld _ _ _).
    assert (Hthis' : objs σ' !! this = Some r) by (subst σ'; cbn; by rewrite lookup_insert_eq).
    assert (Hrhs' : objs σ' !! rhs = Some r) by (subst σ'; cbn; by rewrite lookup_insert_ne).
    split; [|split; [|by eauto 6]].
    + rewrite (new_calls_app σ σ' (retain_calls r)) by done.
      by rewrite retain_calls_owning.
    + rewrite (R_retain r σ' σ) by done. rewrite Ho. cbn. by rewrite N.eqb_refl.
  - destruct Htarget as (w & Hthis & Hne).
    pose proof (distinct_objects _ _ _ _ _ Hthis Hrhs Hne).
    eexists. split; [by apply assign_copy_run|].
    set (σ' := mkWorld _ _ _).
    assert (Hthis' : objs σ' !! this = Some r) by (subst σ'; cbn; by rewrite lookup_insert_eq).
    assert (Hrhs' : objs σ' !! rhs = Some r) by (subst σ'; cbn; by rewrite lookup_insert_ne).
    split; [|split; [|by eauto 6]].
    + rewrite (new_calls_app σ σ' (release_calls w ++ retain_calls r)) by done.
      by rewrite retained_app, retained_release_calls, retain_calls_owning.
    + unfold R. subst σ'. cbn [refs].
      rewrite refcount_retain, refcount_release, Ho. cbn [andb].
      rewrite N.eqb_refl. apply N.eqb_neq in Hne. rewrite Hne, andb_false_r. done.
Qed.

(** C2 amended, at a concrete input: copy assignment of an owner of handle 7
    onto an owner of handle 5. *)
Lemma copy_retains_exactly_once_witness :
  let σ := mkWorld {[ 1%positive := mkCFWrapper 5 true; 2%positive := mkCFWrapper 7 true ]}
                   {[ 5%N := 1; 7%N := 1 ]} [] in
  ∃ σ', copy CopyAssign 1 2 σ = Some (tt, σ')
      ∧ retained (new_calls σ σ') = [7%N]
      ∧ R σ' 7 = R σ 7 + 1
      ∧ objs σ' !! 1%positive = Some (mkCFWrapper 7 true)
      ∧ objs σ' !! 2%positive = Some (mkCFWrapper 7 true)
      ∧ (∃ σ'', destroy 1 σ' = Some (tt, σ'')
              ∧ new_calls σ' σ'' = [Release 7]
              ∧ R σ'' 7 = R σ' 7 - 1)
      ∧ (∃ σ'', destroy 2 σ' = Some (tt, σ'')
              ∧ new_calls σ' σ'' = [Release 7]
              ∧ R σ'' 7 = R σ' 7 - 1).
Proof.
  intros σ.
  apply (copy_retains_exactly_once CopyAssign σ 1%positive 2%positive (mkCFWrapper 7 true)).
  - reflexivity.
  - reflexivity.
  - exists (mkCFWrapper 5 true). split; [reflexivity|discriminate].
Defined.

(** ** Moves *)

(** C3: move construction from a wrapper in state [Owning h] gives the
    destination the handle and the flag (it is in state [Owning h]), makes no
    host call, so the count of [h] is unchanged, and empties the handle of the
    source.  The member [mRelease] of the source is not written; with an
    empty handle the source is in state [Empty], fails the guard
    [mObject && mRelease], and its destruction releases nothing. *)
Theorem move_ctor_transfers_ownership
    (σ : world) (this rhs : addr) (r : CFWrapper) (h : handle) :
  objs σ !! this = None →
  objs σ !! rhs = Some r →
  state_of r = Owning h →
  ∃ σ' src, move_ctor this rhs σ = Some (tt, σ')
      ∧ objs σ' !! this = Some (mkCFWrapper h true)
      ∧ state_of (mkCFWrapper h true) = Owning h
      ∧ calls σ' = calls σ
      ∧ refs σ' = refs σ
      ∧ R σ' h = R σ h
      ∧ objs σ' !! rhs = Some src
      ∧ mObject src = nullptr
      ∧ mRelease src = mRelease r
      ∧ state_of src = Empty
      ∧ owning src = false
      ∧ ∃ σ'', destroy rhs σ' = Some (tt, σ'')
             ∧ calls σ'' = calls σ
             ∧ refs σ'' = refs σ.
Proof.
  intros Hthis Hrhs Hst.
  pose proof Hst as [-> Hh]%state_of_Owning.
  assert (this ≠ rhs) by congruence.
  exists (mkWorld (<[rhs := mkCFWrapper nullptr true]> (<[this := mkCFWrapper h true]> (objs σ)))
                  (refs σ) (calls σ)), (mkCFWrapper nullptr true).
  split; [by apply move_ctor_run|]. cbn [objs refs calls].
  split; [by rewrite lookup_insert_ne, lookup_insert_eq|].
  do 4 (split; [done|]).
  split; [by rewrite lookup_insert_eq|]. do 4 (split; [done|]).
  set (σ' := mkWorld _ _ _).
  assert (Hsrc : objs σ' !! rhs = Some (mkCFWrapper nullptr true))
    by (subst σ'; cbn; by rewrite lookup_insert_eq).
  destruct (destroy_not_owning σ' rhs _ Hsrc eq_refl) as (σ'' & ? & ? & ?).
  by exists σ''.
Qed.

(** C3, at a concrete input. *)
Lemma move_ctor_transfers_ownership_witness :
  let σ := mkWorld {[ 2%positive := mkCFWrapper 7 true ]} {[ 7%N := 1 ]} [] in
  ∃ σ' src, move_ctor 1 2 σ = Some (tt, σ')
      ∧ objs σ' !! 1%positive = Some (mkCFWrapper 7 true)
      ∧ state_of (mkCFWrapper 7 true) = Owning 7
      ∧ calls σ' = calls σ
      ∧ refs σ' = refs σ
      ∧ R σ' 7 = R σ 7
      ∧ objs σ' !! 2%positive = Some src
      ∧ mObject src = nullptr
      ∧ mRelease src = true
      ∧ state_of src = Empty
      ∧ owning src = false
      ∧ ∃ σ'', destroy 2 σ' = Some (tt, σ'')
             ∧ calls σ'' = calls σ
             ∧ refs σ'' = refs σ.
Proof.
  intros σ.
  apply (move_ctor_transfers_ownership σ 1%positive 2%positive (mkCFWrapper 7 true) 7%N);
    reflexivity.
Defined.

(** ** Assignment *)

(** C4: copy and move assignment between two live wrappers.  When the
    incoming handle is identical to the current one, neither has any effect;
    assigning a wrapper to itself is such a case, so the reference counts are
    unchanged.  When the handles differ: the target's handle is released if
    the target owned a non-empty handle; then the target receives the
    source's handle and flag; copy assignment then retains the new handle if
    it is non-empty and owned, the release coming first in the trace; move
    assignment instead empties the source's handle. *)
Theorem assignment_between_wrappers
    (σ : world) (this rhs : addr) (w r : CFWrapper) :
  objs σ !! this = Some w →
  objs σ !! rhs = Some r →
  (mObject w = mObject r →
     assign_copy this rhs σ = Some (tt, σ) ∧ assign_move this rhs σ = Some (tt, σ))
  ∧ (assign_copy this this σ = Some (tt, σ) ∧ assign_move this this σ = Some (tt, σ))
  ∧ (mObject w ≠ mObject r →
     (∃ σ', assign_copy this rhs σ = Some (tt, σ')
          ∧ calls σ' = calls σ
                       ++ (if owning w then [Release (mObject w)] else [])
                       ++ (if owning r then [Retain (mObject r)] else [])
          ∧ objs σ' !! this = Some r
          ∧ objs σ' !! rhs = Some r
          ∧ ∀ h, R σ' h = R σ h - owned_refs w h + owned_refs r h)
     ∧ (∃ σ', assign_move this rhs σ = Some (tt, σ')
          ∧ calls σ' = calls σ ++ (if owning w then [Release (mObject w)] else [])
          ∧ objs σ' !! this = Some r
          ∧ objs σ' !! rhs = Some (mkCFWrapper nullptr (mRelease r))
          ∧ ∀ h, R σ' h = R σ h - owned_refs w h)).
Proof.
  intros Hthis Hrhs. split; [|split].
  - intros Heq. split.
    + by apply (assign_copy_same _ _ _ w r).
    + by apply (assign_move_same _ _ _ w r).
  - split.
    + by apply (assign_copy_same _ _ _ w w).
    + by apply (assign_move_same _ _ _ w w).
  - intros Hne. pose proof (distinct_objects _ _ _ _ _ Hthis Hrhs Hne). split.
    + eexists. split; [by apply assign_copy_run|]. cbn [objs refs calls].
      split; [done|]. split; [by rewrite lookup_insert_eq|].
      split; [by rewrite lookup_insert_ne|].
      intros h. unfold R, owned_refs. cbn [refs].
      rewrite refcount_retain, refcount_release.
      destruct (owning w && (mObject w =? h)%N), (owning r && (mObject r =? h)%N); lia.
    + eexists. split; [by apply assign_move_run|]. cbn [objs refs calls].
      split; [done|]. split; [by rewrite lookup_insert_ne, lookup_insert_eq|].
      split; [by rewrite lookup_insert_eq|].
      intros h. unfold R, owned_refs. cbn [refs]. rewrite refcount_release.
      destruct (owning w && (mObject w =? h)%N); lia.
Qed.

(** C4, at a concrete input: an owner of handle 5 and an owner of handle 7. *)
Lemma assignment_between_wrappers_witness :
  let σ := mkWorld {[ 1%positive := mkCFWrapper 5 true; 2%positive := mkCFWrapper 7 true ]}
                   {[ 5%N := 1; 7%N := 1 ]} [] in
  (assign_copy 1 1 σ = Some (tt, σ) ∧ assign_move 1 1 σ = Some (tt, σ))
  ∧ (∃ σ', assign_copy 1 2 σ = Some (tt, σ')
         ∧ calls σ' = [Release 5; Retain 7]
         ∧ objs σ' !! 1%positive = Some (mkCFWrapper 7 true)
         ∧ objs σ' !! 2%positive = Some (mkCFWrapper 7 true)
         ∧ R σ' 5 = 0 ∧ R σ' 7 = 2)
  ∧ (∃ σ', assign_move 1 2 σ = Some (tt, σ')
         ∧ calls σ' = [Release 5]
         ∧ objs σ' !! 1%positive = Some (mkCFWrapper 7 true)
         ∧ objs σ' !! 2%positive = Some (mkCFWrapper nullptr true)
         ∧ R σ' 5 = 0 ∧ R σ' 7 = 1).
Proof.
  intros σ.
  destruct (assignment_between_wrappers σ 1%positive 2%positive
              (mkCFWrapper 5 true) (mkCFWrapper 7 true) eq_refl eq_refl)
    as (_ & Hself & Hdiff).
  split; [exact Hself|].
  destruct (Hdiff ltac:(discriminate)) as [(σc & Hc & Hcc & Hc1 & Hc2 & HcR)
                                           (σm & Hm & Hmc & Hm1 & Hm2 & HmR)].
  split.
  - exists σc. repeat split; try assumption.
    + rewrite (HcR 5%N). reflexivity.
    + rewrite (HcR 7%N). reflexivity.
  - exists σm. repeat split; try assumption.
    + rewrite (HmR 5%N). reflexivity.
    + rewrite (HmR 7%N). reflexivity.
Defined.

(** C5: assigning a raw handle [h] distinct from the current handle releases
    the current handle if the wrapper owned a non-empty one, installs [h] and
    sets [mRelease = true]; no [CFRetain] is issued, and the count of [h] is
    not raised. *)
Theorem assign_raw_adopts
    (σ : world) (this : addr) (w : CFWrapper) (h : handle) :
  objs σ !! this = Some w →
  mObject w ≠ h →
  ∃ σ', assign_raw this h σ = Some (tt, σ')
      ∧ objs σ' !! this = Some (mkCFWrapper h true)
      ∧ calls σ' = calls σ ++ (if owning w then [Release (mObject w)] else [])
      ∧ retained (new_calls σ σ') = []
      ∧ R σ' h = R σ h
      ∧ R σ' (mObject w) = R σ (mObject w) - (if owning w then 1 else 0).
Proof.
  intros Hthis Hne.
  eexists. split; [by apply assign_raw_run|]. set (σ' := mkWorld _ _ _).
  split; [subst σ'; cbn; by rewrite lookup_insert_eq|].
  split; [done|]. split.
  - rewrite (new_calls_app σ σ' (release_calls w)) by done.
    apply retained_release_calls.
  - unfold R. subst σ'. cbn [refs]. rewrite !refcount_release, N.eqb_refl.
    apply N.eqb_neq in Hne. rewrite Hne, andb_false_r, andb_true_r.
    split; [done|]. destruct (owning w); lia.
Qed.

(** C5, at a concrete input: the raw handle 7 assigned to an owner of 5. *)
Lemma assign_raw_adopts_witness :
  let σ := mkWorld {[ 1%positive := mkCFWrapper 5 true ]} {[ 5%N := 1; 7%N := 1 ]} [] in
  ∃ σ', assign_raw 1 7 σ = Some (tt, σ')
      ∧ objs σ' !! 1%positive = Some (mkCFWrapper 7 true)
      ∧ calls σ' = [Release 5]
      ∧ retained (new_calls σ σ') = []
      ∧ R σ' 7 = 1
      ∧ R σ' 5 = 0.
Proof.
  intros σ.
  apply (assign_raw_adopts σ 1%positive (mkCFWrapper 5 true) 7%N).
  - reflexivity.
  - discriminate.
Defined.

(** C10: assigning to a wrapper the raw handle it already holds changes
    nothing at all, the [mRelease] flag included.  A wrapper in state
    [Borrowing h] assigned [h] is still borrowing, and its destruction does not
    release the reference that came with the assigned handle. *)
Theorem assign_raw_same_handle_unchanged
    (σ : world) (this : addr) (w : CFWrapper) (h : handle) :
  objs σ !! this = Some w →
  mObject w = h →
  assign_raw this h σ = Some (tt, σ)
  ∧ (state_of w = Borrowing h →
       ∃ σ', (assign_raw this h >> get_mRelease this) σ = Some (false, σ)
          ∧ (assign_raw this h >> destroy this) σ = Some (tt, σ')
          ∧ calls σ' = calls σ
          ∧ released (new_calls σ σ') = []
          ∧ R σ' h = R σ h).
Proof.
  intros Hthis <-.
  pose proof (assign_raw_same _ _ _ Hthis) as Hrun.
  split; [done|]. intros Hst.
  apply state_of_Borrowing in Hst as [Hw Hh].
  assert (Ho : owning w = false)
    by (unfold owning; rewrite Hw; cbn; apply andb_false_r).
  destruct (destroy_not_owning _ _ _ Hthis Ho) as (σ' & Hd & Hc & Hr).
  exists σ'. rewrite !(bind_run _ _ _ _ _ Hrun).
  split; [rewrite (get_mRelease_run _ _ _ Hthis); by rewrite Hw|].
  split; [done|]. split; [done|]. split.
  - rewrite (new_calls_app σ σ' []); [done|]. by rewrite app_nil_r.
  - unfold R. by rewrite Hr.
Qed.

(** C10, at a concrete input: handle 7 assigned to a borrower of 7. *)
Lemma assign_raw_same_handle_unchanged_witness :
  let σ := mkWorld {[ 1%positive := mkCFWrapper 7 false ]} {[ 7%N := 1 ]} [] in
  assign_raw 1 7 σ = Some (tt, σ)
  ∧ ∃ σ', (assign_raw 1 7 >> get_mRelease 1) σ = Some (false, σ)
        ∧ (assign_raw 1 7 >> destroy 1) σ = Some (tt, σ')
        ∧ calls σ' = calls σ
        ∧ released (new_calls σ σ') = []
        ∧ R σ' 7 = R σ 7.
Proof.
  intros σ.
  destruct (assign_raw_same_handle_unchanged σ 1%positive (mkCFWrapper 7 false) 7%N
              eq_refl eq_refl) as [Hsame Hborrow].
  split; [exact Hsame|]. apply Hborrow. reflexivity.
Defined.

(** ** Relinquish *)

(** C6: [Relinquish] returns the current handle and empties the wrapper's
    handle; [mRelease] keeps its value, no host call is made and the reference
    counts are unchanged; destroying the wrapper afterwards releases
    nothing. *)
Theorem Relinquish_surrenders_handle (σ : world) (this : addr) (w : CFWrapper) :
  objs σ !! this = Some w →
  ∃ σ', Relinquish this σ = Some (mObject w, σ')
      ∧ objs σ' !! this = Some (mkCFWrapper nullptr (mRelease w))
      ∧ calls σ' = calls σ
      ∧ refs σ' = refs σ
      ∧ R σ' (mObject w) = R σ (mObject w)
      ∧ ∃ σ'', destroy this σ' = Some (tt, σ'')
             ∧ calls σ'' = calls σ
             ∧ released (new_calls σ σ'') = []
             ∧ R σ'' (mObject w) = R σ (mObject w).
Proof.
  intros Hthis.
  eexists. split; [by apply Relinquish_run|]. set (σ' := mkWorld _ _ _).
  assert (Hthis' : objs σ' !! this = Some (mkCFWrapper nullptr (mRelease w)))
    by (subst σ'; cbn; by rewrite lookup_insert_eq).
  do 4 (split; [done|]).
  destruct (destroy_not_owning σ' this _ Hthis' eq_refl) as (σ'' & Hd & Hc & Hr).
  exists σ''. split; [done|]. split; [done|]. split.
  - rewrite (new_calls_app σ σ'' []); [done|]. by rewrite app_nil_r.
  - unfold R. by rewrite Hr.
Qed.

(** C6, at a concrete input: an owner of handle 7. *)
Lemma Relinquish_surrenders_handle_witness :
  let σ := mkWorld {[ 1%positive := mkCFWrapper 7 true ]} {[ 7%N := 1 ]} [] in
  ∃ σ', Relinquish 1 σ = Some (7%N, σ')
      ∧ objs σ' !! 1%positive = Some (mkCFWrapper nullptr true)
      ∧ calls σ' = calls σ
      ∧ refs σ' = refs σ
      ∧ R σ' 7 = R σ 7
      ∧ ∃ σ'', destroy 1 σ' = Some (tt, σ'')
             ∧ calls σ'' = calls σ
             ∧ released (new_calls σ σ'') = []
             ∧ R σ'' 7 = R σ 7.
Proof.
  intros σ.
  apply (Relinquish_surrenders_handle σ 1%positive (mkCFWrapper 7 true)).
  reflexivity.
Defined.

(** ** Equality *)

(** C8: [a == b] is [true] when the two handles are identical, both empty
    included; when they differ and either one is empty it is [false]; when
    they differ and both are non-empty it is the answer of [CFEqual], which is
    called on exactly these two handles.  In the first two cases the host is
    not called.  [a != b] is the negation. *)
Theorem op_eq_by_identity_then_host
    (host_equal : handle → handle → bool) (σ : world) (this rhs : addr) (a b : CFWrapper) :
  objs σ !! this = Some a →
  objs σ !! rhs = Some b →
  ∃ res σ', op_eq host_equal this rhs σ = Some (res, σ')
      ∧ op_ne host_equal this rhs σ = Some (negb res, σ')
      ∧ objs σ' = objs σ
      ∧ refs σ' = refs σ
      ∧ (mObject a = mObject b → res = true ∧ σ' = σ)
      ∧ (mObject a ≠ mObject b → mObject a = nullptr ∨ mObject b = nullptr →
           res = false ∧ σ' = σ)
      ∧ (mObject a ≠ mObject b → mObject a ≠ nullptr → mObject b ≠ nullptr →
           res = host_equal (mObject a) (mObject b)
           ∧ new_calls σ σ' = [Equal (mObject a) (mObject b)]).
Proof.
  intros Hthis Hrhs.
  pose proof (op_eq_run host_equal _ _ _ _ _ Hthis Hrhs) as Hrun.
  unfold op_ne. unfold nonnull in Hrun.
  destruct (N.eqb_spec (mObject a) (mObject b)) as [Heq|Hne].
  { exists true, σ. rewrite (bind_run _ _ _ _ _ Hrun). by repeat split. }
  destruct (N.eqb_spec (mObject a) nullptr) as [Ha|Ha]; cbn in Hrun.
  { exists false, σ. rewrite (bind_run _ _ _ _ _ Hrun). by repeat split. }
  destruct (N.eqb_spec (mObject b) nullptr) as [Hb|Hb]; cbn in Hrun.
  { exists false, σ. rewrite (bind_run _ _ _ _ _ Hrun). by repeat split. }
  eexists _, _. split; [exact Hrun|]. rewrite (bind_run _ _ _ _ _ Hrun).
  split; [done|]. cbn [objs refs calls]. do 2 (split; [done|]).
  split; [done|]. split; [by intros _ [?|?]|].
  intros _ _ _. split; [done|]. by apply new_calls_app.
Qed.

(** C8, at a concrete input: two distinct non-empty handles that the host
    declares equal. *)
Lemma op_eq_by_identity_then_host_witness :
  let σ := mkWorld {[ 1%positive := mkCFWrapper 5 true; 2%positive := mkCFWrapper 7 false ]}
                   {[ 5%N := 1; 7%N := 1 ]} [] in
  ∃ σ', op_eq (λ _ _, true) 1 2 σ = Some (true, σ')
      ∧ op_ne (λ _ _, true) 1 2 σ = Some (false, σ')
      ∧ new_calls σ σ' = [Equal 5 7].
Proof.
  intros σ.
  destruct (op_eq_by_identity_then_host (λ _ _, true) σ 1%positive 2%positive
              (mkCFWrapper 5 true) (mkCFWrapper 7 false) eq_refl eq_refl)
    as (res & σ' & Heq & Hne & _ & _ & _ & _ & Hhost).
  destruct (Hhost ltac:(discriminate) ltac:(discriminate) ltac:(discriminate))
    as [-> Hcalls].
  exists σ'. repeat split; assumption.
Defined.

(** ** The deferred closure *)

(** C9: constructing a deferred closure bound to the callable [f] invokes
    nothing; destroying it invokes [f] exactly once, on the state as it is at
    that moment, and the object is gone afterwards. *)
Theorem deferred_closure_runs_once_at_destruction
    (Env : Type) (s : Deferred.state Env) (this closure : addr) (f : Env → Env) :
  Deferred.deferred s !! this = None →
  Deferred.callables s !! closure = Some f →
  ∃ s1, Deferred.ctor this closure s = Some s1
      ∧ Deferred.invoked s1 = Deferred.invoked s
      ∧ Deferred.invocations closure s s1 = 0%nat
      ∧ Deferred.env s1 = Deferred.env s
      ∧ ∃ s2, Deferred.dtor this s1 = Some s2
            ∧ Deferred.invoked s2 = Deferred.invoked s1 ++ [closure]
            ∧ Deferred.invocations closure s1 s2 = 1%nat
            ∧ Deferred.invocations closure s s2 = 1%nat
            ∧ Deferred.env s2 = f (Deferred.env s)
            ∧ Deferred.deferred s2 !! this = None
            ∧ Deferred.dtor this s2 = None.
Proof.
  intros Hfresh Hf. unfold Deferred.ctor. rewrite Hfresh.
  eexists. split; [done|]. cbn.
  unfold Deferred.invocations. cbn. rewrite drop_all.
  do 3 (split; [done|]).
  unfold Deferred.dtor, Deferred.call. cbn. rewrite lookup_insert_eq. cbn. rewrite Hf.
  eexists. split; [done|]. cbn. rewrite drop_app_length. cbn.
  rewrite lookup_delete_eq. rewrite decide_True by done. done.
Qed.

(** C9, at a concrete input: the closure increments a counter. *)
Lemma deferred_closure_runs_once_at_destruction_witness :
  let s := Deferred.mkState 41%nat {[ 9%positive := S ]} ∅ [] in
  ∃ s1, Deferred.ctor 1 9 s = Some s1
      ∧ Deferred.invocations 9 s s1 = 0%nat
      ∧ Deferred.env s1 = 41%nat
      ∧ ∃ s2, Deferred.dtor 1 s1 = Some s2
            ∧ Deferred.invocations 9 s1 s2 = 1%nat
            ∧ Deferred.env s2 = 42%nat.
Proof.
  intros s.
  destruct (deferred_closure_runs_once_at_destruction nat s 1%positive 9%positive S
              eq_refl eq_refl)
    as (s1 & Hc & _ & Hn & He & s2 & Hd & _ & Hn2 & _ & He2 & _).
  exists s1. repeat split; try assumption.
  exists s2. repeat split; assumption.
Defined.

(** ** No double release *)

(** C7: take any program of wrapper operations that runs to completion, any
    object [a] and any handle [h], and any segment of the program.  Over the
    segment, the releases of [h] issued by [a], plus the ownership of [h] it
    still holds at the end, never exceed the ownerships of [h] it acquired in
    the segment plus the one it held at the start.  Hence, as long as [a]
    acquires no new ownership of [h], it issues at most one [CFRelease(h)];
    it issues one only if it owned [h] at the start, and it does not own [h]
    afterwards: no owned reference is released twice. *)
Theorem no_double_release
    (a : addr) (h : handle) (before segment after : list cmd)
    (σ0 : world) (total : nat * nat * world) :
  audit a h (before ++ segment ++ after) σ0 = Some total →
  ∃ acq0 rel0 σ acq rel σ',
    audit a h before σ0 = Some (acq0, rel0, σ)
    ∧ audit a h segment σ = Some (acq, rel, σ')
    ∧ (rel + holds_count σ' a h ≤ acq + holds_count σ a h)%nat
    ∧ (acq = 0%nat →
         (rel ≤ 1)%nat
         ∧ (rel = 1%nat → holds σ a h = true ∧ holds σ' a h = false)).
Proof.
  rewrite audit_app. intros Hrun.
  destruct (audit a h before σ0) as [[[acq0 rel0] σ]|]; [|discriminate].
  rewrite audit_app in Hrun.
  destruct (audit a h segment σ) as [[[acq rel] σ']|] eqn:Hseg; [|discriminate].
  exists acq0, rel0, σ, acq, rel, σ'. do 2 (split; [done|]).
  pose proof (audit_books _ _ _ _ _ _ _ Hseg) as Hbooks.
  split; [done|]. intros ->.
  pose proof (holds_count_le_1 σ a h). split; [lia|].
  intros ->. unfold holds_count in Hbooks.
  destruct (holds σ a h), (holds σ' a h); cbn in Hbooks; first [lia | done].
Qed.

(** C7, at a concrete program: the object at 1 adopts handle 7 and is copied
    to 2; it is then assigned the raw handle 5 (releasing 7) and relinquishes
    it; both objects are destroyed. *)
Lemma no_double_release_witness :
  let σ0 := mkWorld ∅ {[ 5%N := 1; 7%N := 1 ]} [] in
  ∃ acq0 rel0 σ acq rel σ',
    audit 1 7 [Construct 1 7 true; CopyCtor 2 1] σ0 = Some (acq0, rel0, σ)
    ∧ audit 1 7 [AssignRaw 1 5; DoRelinquish 1] σ = Some (acq, rel, σ')
    ∧ (rel + holds_count σ' 1 7 ≤ acq + holds_count σ 1 7)%nat
    ∧ (acq = 0%nat →
         (rel ≤ 1)%nat
         ∧ (rel = 1%nat → holds σ 1 7 = true ∧ holds σ' 1 7 = false)).
Proof.
  intros σ0.
  eapply (no_double_release 1%positive 7%N
            [Construct 1 7 true; CopyCtor 2 1]
            [AssignRaw 1 5; DoRelinquish 1]
            [Destroy 1; Destroy 2] σ0).
  vm_compute. reflexivity.
Defined.

(** * Further properties of the code *)

(** ** Writing through [operator&] *)

Lemma op_addr_run σ this w :
  objs σ !! this = Some w → op_addr this σ = Some (this, σ).
Proof. unfold op_addr. by intros ->. Qed.

Lemma store_through_run σ this w h :
  objs σ !! this = Some w →
  (do p <- op_addr this; store_handle p h) σ
  = Some (tt, mkWorld (<[this := mkCFWrapper h (mRelease w)]> (objs σ)) (refs σ) (calls σ)).
Proof.
  intros Hthis. rewrite (bind_run _ _ _ _ _ (op_addr_run _ _ _ Hthis)).
  by apply set_mObject_run.
Qed.

(** X1: the out-parameter idiom.  A default-constructed wrapper whose handle
    is then written through [operator&] owns what was written, although no
    call of the host was made: its destruction releases that handle exactly
    once. *)
Theorem out_parameter_is_adopted (σ : world) (this : addr) (h : handle) :
  objs σ !! this = None →
  h ≠ nullptr →
  ∃ σ1 σ2,
    (ctor_default this >> do p <- op_addr this; store_handle p h) σ = Some (tt, σ1)
    ∧ objs σ1 !! this = Some (mkCFWrapper h true)
    ∧ calls σ1 = calls σ
    ∧ refs σ1 = refs σ
    ∧ destroy this σ1 = Some (tt, σ2)
    ∧ new_calls σ σ2 = [Release h]
    ∧ R σ2 h = R σ h - 1.
Proof.
  intros Hfresh Hh.
  assert (Ho : owning (mkCFWrapper h true) = true) by by apply owning_iff.
  unfold ctor_default, ctor_object.
  rewrite (bind_run _ _ _ _ _ (ctor_run _ _ nullptr true Hfresh)).
  erewrite store_through_run by (cbn; apply lookup_insert_eq).
  cbn [objs refs calls mRelease]. rewrite insert_insert_eq.
  set (σ1 := mkWorld _ _ _).
  assert (Hlive : objs σ1 !! this = Some (mkCFWrapper h true))
    by (subst σ1; cbn; apply lookup_insert_eq).
  destruct (destroy_owning _ _ _ Hlive Ho) as (σ2 & Hd & Hc & HR).
  exists σ1, σ2. do 5 (split; [done|]). split; [by apply new_calls_app|done].
Qed.

Lemma out_parameter_is_adopted_witness :
  ∃ σ1 σ2,
    (ctor_default 1 >> do p <- op_addr 1; store_handle p 7) fresh_object = Some (tt, σ1)
    ∧ objs σ1 !! 1%positive = Some (mkCFWrapper 7 true)
    ∧ calls σ1 = calls fresh_object
    ∧ refs σ1 = refs fresh_object
    ∧ destroy 1 σ1 = Some (tt, σ2)
    ∧ new_calls fresh_object σ2 = [Release 7]
    ∧ R σ2 7 = R fresh_object 7 - 1.
Proof.
  apply (out_parameter_is_adopted fresh_object 1%positive 7%N).
  - reflexivity.
  - discriminate.
Defined.

(** X2: [operator&] gives access to the handle without the guard of the
    assignment operators.  Writing a different handle through it into a
    wrapper that owns one makes no host call and keeps the flag; the wrapper
    then answers for the new handle only, so that after its destruction the
    handle it owned before has not been released. *)
Theorem store_through_address_drops_owned_handle
    (σ : world) (this : addr) (w : CFWrapper) (h : handle) :
  objs σ !! this = Some w →
  owning w = true →
  mObject w ≠ h →
  ∃ σ1 σ2,
    (do p <- op_addr this; store_handle p h) σ = Some (tt, σ1)
    ∧ objs σ1 !! this = Some (mkCFWrapper h true)
    ∧ calls σ1 = calls σ
    ∧ refs σ1 = refs σ
    ∧ destroy this σ1 = Some (tt, σ2)
    ∧ released (new_calls σ σ2) = (if nonnull h then [h] else [])
    ∧ R σ2 (mObject w) = R σ (mObject w).
Proof.
  intros Hthis Ho Hne. pose proof Ho as [_ Hflag]%owning_iff.
  rewrite (store_through_run _ _ _ h Hthis), Hflag.
  set (σ1 := mkWorld _ _ _).
  assert (Hlive : objs σ1 !! this = Some (mkCFWrapper h true))
    by (subst σ1; cbn; apply lookup_insert_eq).
  destruct (destroy_outcome _ _ _ Hlive) as (σ2 & Hd & _ & Hc & Hr).
  exists σ1, σ2. do 5 (split; [done|]). split.
  - rewrite (new_calls_app σ σ2 _ Hc). rewrite released_release_calls.
    unfold owning. cbn. by rewrite andb_true_r.
  - rewrite (R_release _ _ σ1 _ Hr). cbn [mObject].
    apply not_eq_sym, N.eqb_neq in Hne. by rewrite Hne, andb_false_r.
Qed.

Lemma store_through_address_drops_owned_handle_witness :
  let σ := mkWorld {[ 1%positive := mkCFWrapper 5 true ]} {[ 5%N := 1; 7%N := 1 ]} [] in
  ∃ σ1 σ2,
    (do p <- op_addr 1; store_handle p 7) σ = Some (tt, σ1)
    ∧ objs σ1 !! 1%positive = Some (mkCFWrapper 7 true)
    ∧ calls σ1 = calls σ
    ∧ refs σ1 = refs σ
    ∧ destroy 1 σ1 = Some (tt, σ2)
    ∧ released (new_calls σ σ2) = [7%N]
    ∧ R σ2 5 = R σ 5.
Proof.
  intros σ.
  apply (store_through_address_drops_owned_handle σ 1%positive (mkCFWrapper 5 true) 7%N).
  - reflexivity.
  - reflexivity.
  - discriminate.
Defined.

(** ** Observers *)

(** X3: [operator bool], [operator!] and [Object()] make no host call and
    change nothing.  A wrapper is true exactly when it is not in state
    [Empty], which is when [Object()] is not [nullptr], whatever the value of
    [mRelease]; [operator!] is the negation. *)
Theorem observers_agree (σ : world) (this : addr) (w : CFWrapper) :
  objs σ !! this = Some w →
  ∃ b, op_bool this σ = Some (b, σ)
     ∧ op_not this σ = Some (negb b, σ)
     ∧ Object this σ = Some (mObject w, σ)
     ∧ (b = true ↔ state_of w ≠ Empty)
     ∧ (b = true ↔ mObject w ≠ nullptr)
     ∧ (b = false ↔ owning w = false ∧ state_of w = Empty).
Proof.
  intros Hthis. exists (ptr_ne (mObject w) nullptr).
  unfold op_not, op_bool, Object. exec. do 2 (split; [done|]).
  split; [by apply get_mObject_run|].
  rewrite state_of_Empty. split; [apply ptr_ne_true|]. split; [apply ptr_ne_true|].
  unfold owning, nonnull, ptr_ne.
  destruct (N.eqb_spec (mObject w) nullptr); cbn; split; try done.
  - by intros [_ ?].
Qed.

Lemma observers_agree_witness :
  let σ := mkWorld {[ 1%positive := mkCFWrapper 7 false ]} {[ 7%N := 1 ]} [] in
  ∃ b, op_bool 1 σ = Some (b, σ)
     ∧ op_not 1 σ = Some (negb b, σ)
     ∧ Object 1 σ = Some (7%N, σ)
     ∧ (b = true ↔ state_of (mkCFWrapper 7 false) ≠ Empty)
     ∧ (b = true ↔ 7%N ≠ nullptr)
     ∧ (b = false ↔ owning (mkCFWrapper 7 false) = false
                     ∧ state_of (mkCFWrapper 7 false) = Empty).
Proof.
  intros σ. apply (observers_agree σ 1%positive (mkCFWrapper 7 false)). reflexivity.
Defined.

(** ** Constructors from a host factory *)

Lemma CFCreate_run σ h :
  CFCreate h σ
  = Some (h, mkWorld (objs σ)
                     (if nonnull h then <[h := refcount (refs σ) h + 1]> (refs σ) else refs σ)
                     (calls σ)).
Proof.
  unfold CFCreate, nonnull. destruct (N.eqb_spec h nullptr) as [->|Hne]; cbn.
  - by rewrite world_eta.
  - done.
Qed.

(** X4: the life of a wrapper built by a factory constructor.  The wrapper
    adopts what the factory returned without retaining it.  If the factory
    failed, the wrapper is false and its whole life, destruction included,
    leaves the world exactly as it was.  If it succeeded, the wrapper is
    true, its destruction issues the one [CFRelease] that balances the
    reference the factory gave, and every reference count is back at its
    value from before the construction. *)
Theorem factory_wrapper_lifecycle (σ : world) (this : addr) (h : handle) :
  objs σ !! this = None →
  ∃ σ1 σ2,
    ctor_create (CFCreate h) this σ = Some (tt, σ1)
    ∧ objs σ1 !! this = Some (mkCFWrapper h true)
    ∧ calls σ1 = calls σ
    ∧ op_bool this σ1 = Some (nonnull h, σ1)
    ∧ destroy this σ1 = Some (tt, σ2)
    ∧ objs σ2 = objs σ
    ∧ new_calls σ σ2 = (if nonnull h then [Release h] else [])
    ∧ (∀ x, R σ2 x = R σ x)
    ∧ (h = nullptr → σ1 = mkWorld (<[this := mkCFWrapper nullptr true]> (objs σ))
                                  (refs σ) (calls σ)
                     ∧ σ2 = σ).
Proof.
  intros Hfresh. unfold ctor_create, ctor_object.
  rewrite (bind_run _ _ _ _ _ (CFCreate_run σ h)).
  rewrite ctor_run by done. cbn [objs refs calls].
  set (σ1 := mkWorld _ _ _).
  assert (Hlive : objs σ1 !! this = Some (mkCFWrapper h true))
    by (subst σ1; cbn; apply lookup_insert_eq).
  exists σ1. rewrite (destroy_run _ _ _ Hlive). eexists.
  do 3 (split; [done|]).
  split. { unfold op_bool. by exec. }
  split; [done|]. cbn [objs refs calls]. subst σ1. cbn [objs refs calls].
  split. { rewrite delete_insert_eq. by apply delete_id. }
  split. { apply new_calls_app. cbn. unfold release_calls, owning. cbn.
           by rewrite andb_true_r. }
  unfold R. cbn [refs]. unfold refs_release, owning. cbn [mObject mRelease].
  rewrite andb_true_r. unfold nonnull.
  destruct (N.eqb_spec h nullptr) as [->|Hne]; cbn.
  - split; [done|]. intros _. split; [done|].
    rewrite delete_insert_eq. rewrite delete_id by done.
    rewrite app_nil_r. apply world_eta.
  - split; [|done]. intros x. unfold refcount.
    destruct (decide (h = x)) as [<-|Hx].
    + rewrite !lookup_insert_eq. cbn. lia.
    + by rewrite !lookup_insert_ne.
Qed.

Lemma factory_wrapper_lifecycle_witness :
  let σ := mkWorld ∅ ∅ [] in
  ∃ σ1 σ2,
    ctor_create (CFCreate 7) 1 σ = Some (tt, σ1)
    ∧ objs σ1 !! 1%positive = Some (mkCFWrapper 7 true)
    ∧ calls σ1 = calls σ
    ∧ op_bool 1 σ1 = Some (true, σ1)
    ∧ destroy 1 σ1 = Some (tt, σ2)
    ∧ objs σ2 = objs σ
    ∧ new_calls σ σ2 = [Release 7]
    ∧ (∀ x, R σ2 x = R σ x)
    ∧ (7%N = nullptr → σ1 = mkWorld (<[1%positive := mkCFWrapper nullptr true]> (objs σ))
                                    (refs σ) (calls σ)
                       ∧ σ2 = σ).
Proof.
  intros σ. apply (factory_wrapper_lifecycle σ 1%positive 7%N). reflexivity.
Defined.

(** X5: the constructor from a format string, which default-constructs the
    wrapper and then assigns it the handle the factory returns, produces
    exactly what the delegating factory constructors produce: the same
    wrapper, the same reference counts, and no call of [CFRelease] for the
    empty handle it replaces, even when the factory fails. *)
Theorem ctor_format_agrees_with_ctor_create (σ : world) (this : addr) (h : handle) :
  objs σ !! this = None →
  ctor_format (CFCreate h) this σ = ctor_create (CFCreate h) this σ
  ∧ ∃ σ1, ctor_format (CFCreate h) this σ = Some (tt, σ1)
        ∧ objs σ1 !! this = Some (mkCFWrapper h true)
        ∧ calls σ1 = calls σ.
Proof.
  intros Hfresh.
  assert (Hcreate : ctor_create (CFCreate h) this σ
            = Some (tt, mkWorld (<[this := mkCFWrapper h true]> (objs σ))
                         (if nonnull h then <[h := refcount (refs σ) h + 1]> (refs σ)
                          else refs σ)
                         (calls σ))).
  { unfold ctor_create, ctor_object. rewrite (bind_run _ _ _ _ _ (CFCreate_run σ h)).
    by rewrite ctor_run. }
  assert (Hformat : ctor_format (CFCreate h) this σ
            = Some (tt, mkWorld (<[this := mkCFWrapper h true]> (objs σ))
                         (if nonnull h then <[h := refcount (refs σ) h + 1]> (refs σ)
                          else refs σ)
                         (calls σ))).
  { unfold ctor_format, ctor_default, ctor_object.
    rewrite (bind_run _ _ _ _ _ (ctor_run _ _ nullptr true Hfresh)).
    erewrite bind_run by apply CFCreate_run. cbn [objs refs calls].
    destruct (decide (h = nullptr)) as [->|Hne].
    - erewrite (assign_raw_same _ this (mkCFWrapper nullptr true))
        by (cbn; apply lookup_insert_eq). done.
    - erewrite (assign_raw_run _ this (mkCFWrapper nullptr true))
        by first [cbn; apply lookup_insert_eq | cbn; congruence].
      cbn [objs refs calls]. rewrite insert_insert_eq.
      unfold refs_release, release_calls, owning. cbn. by rewrite app_nil_r. }
  rewrite Hformat, Hcreate. split; [done|].
  eexists. split; [done|]. cbn. split; [apply lookup_insert_eq|done].
Qed.

Lemma ctor_format_agrees_with_ctor_create_witness :
  let σ := mkWorld ∅ ∅ [] in
  ctor_format (CFCreate 7) 1 σ = ctor_create (CFCreate 7) 1 σ
  ∧ ∃ σ1, ctor_format (CFCreate 7) 1 σ = Some (tt, σ1)
        ∧ objs σ1 !! 1%positive = Some (mkCFWrapper 7 true)
        ∧ calls σ1 = calls σ.
Proof.
  intros σ. apply (ctor_format_agrees_with_ctor_create σ 1%positive 7%N). reflexivity.
Defined.

(** ** Operations are defined on live operands *)



(** ** Operations touch only their operands *)

(** X7: an operation writes to its target and, when it is a move, to its
    source; every other object, alive or not, is as before.  In particular a
    copy leaves its source unchanged, and no operation but the destructor
    ends the life of an object. *)
Theorem operations_touch_only_their_operands
    (c : cmd) (σ : world) (u : unit) (σ1 : world) (q : addr) :
  exec_cmd c σ = Some (u, σ1) →
  (¬ writes c q → objs σ1 !! q = objs σ !! q)
  ∧ (is_Some (objs σ !! q) → objs σ1 !! q = None → c = Destroy q).
Proof.
  unfold writes. intros Hrun.
  destruct c as [p h r|p s|p s|p s|p s|p h|p|p]; cbn [exec_cmd target] in *.
  - apply ctor_inv in Hrun as [Hp ->]. cbn. split.
    + intros Hq. apply lookup_insert_ne. naive_solver.
    + intros Hq. destruct (decide (p = q)) as [->|]; [by rewrite lookup_insert_eq|].
      rewrite lookup_insert_ne by done. intros Hn. rewrite Hn in Hq. by destruct Hq.
  - apply copy_ctor_inv in Hrun as (Hp & r & Hs & ->). cbn. split.
    + intros Hq. apply lookup_insert_ne. naive_solver.
    + intros Hq. destruct (decide (p = q)) as [->|]; [by rewrite lookup_insert_eq|].
      rewrite lookup_insert_ne by done. intros Hn. rewrite Hn in Hq. by destruct Hq.
  - apply move_ctor_inv in Hrun as (Hp & r & Hs & ->). cbn. split.
    + intros Hq. rewrite !lookup_insert_ne; naive_solver.
    + intros Hq. destruct (decide (s = q)) as [->|]; [by rewrite lookup_insert_eq|].
      rewrite lookup_insert_ne by done.
      destruct (decide (p = q)) as [->|]; [by rewrite lookup_insert_eq|].
      rewrite lookup_insert_ne by done. intros Hn. rewrite Hn in Hq. by destruct Hq.
  - apply assign_copy_inv in Hrun as (w & r & Hp & Hs & [[_ ->]|[Hne ->]]).
    { split; [done|]. intros Hq Hn. rewrite Hn in Hq. by destruct Hq. }
    cbn. split.
    + intros Hq. apply lookup_insert_ne. naive_solver.
    + intros Hq. destruct (decide (p = q)) as [->|]; [by rewrite lookup_insert_eq|].
      rewrite lookup_insert_ne by done. intros Hn. rewrite Hn in Hq. by destruct Hq.
  - apply assign_move_inv in Hrun as (w & r & Hp & Hs & [[_ ->]|[Hne ->]]).
    { split; [done|]. intros Hq Hn. rewrite Hn in Hq. by destruct Hq. }
    cbn. split.
    + intros Hq. rewrite !lookup_insert_ne; naive_solver.
    + intros Hq. destruct (decide (s = q)) as [->|]; [by rewrite lookup_insert_eq|].
      rewrite lookup_insert_ne by done.
      destruct (decide (p = q)) as [->|]; [by rewrite lookup_insert_eq|].
      rewrite lookup_insert_ne by done. intros Hn. rewrite Hn in Hq. by destruct Hq.
  - apply assign_raw_inv in Hrun as (w & Hp & [[_ ->]|[Hne ->]]).
    { split; [done|]. intros Hq Hn. rewrite Hn in Hq. by destruct Hq. }
    cbn. split.
    + intros Hq. apply lookup_insert_ne. naive_solver.
    + intros Hq. destruct (decide (p = q)) as [->|]; [by rewrite lookup_insert_eq|].
      rewrite lookup_insert_ne by done. intros Hn. rewrite Hn in Hq. by destruct Hq.
  - unfold bind in Hrun. destruct (Relinquish p σ) as [[o σ']|] eqn:HR; [|done].
    injection Hrun as _ <-. apply Relinquish_inv in HR as (w & Hp & _ & ->). cbn. split.
    + intros Hq. apply lookup_insert_ne. naive_solver.
    + intros Hq. destruct (decide (p = q)) as [->|]; [by rewrite lookup_insert_eq|].
      rewrite lookup_insert_ne by done. intros Hn. rewrite Hn in Hq. by destruct Hq.
  - apply destroy_inv in Hrun as (w & Hp & ->). cbn. split.
    + intros Hq. apply lookup_delete_ne. naive_solver.
    + intros Hq. destruct (decide (p = q)) as [->|]; [done|].
      rewrite lookup_delete_ne by done. intros Hn. rewrite Hn in Hq. by destruct Hq.
Qed.

Lemma operations_touch_only_their_operands_witness :
  let σ := mkWorld {[ 1%positive := mkCFWrapper 5 true; 2%positive := mkCFWrapper 7 true ]}
                   {[ 5%N := 1; 7%N := 1 ]} [] in
  let σ1 := mkWorld {[ 1%positive := mkCFWrapper 7 true; 2%positive := mkCFWrapper 7 true ]}
                    {[ 5%N := 0; 7%N := 2 ]} [Release 5; Retain 7] in
  (¬ writes (AssignCopy 1 2) 2%positive → objs σ1 !! 2%positive = objs σ !! 2%positive)
  ∧ (is_Some (objs σ !! 2%positive) → objs σ1 !! 2%positive = None
     → AssignCopy 1 2 = Destroy 2).
Proof.
  intros σ σ1.
  apply (operations_touch_only_their_operands (AssignCopy 1 2) σ tt σ1 2%positive).
  vm_compute. reflexivity.
Defined.

(** ** Conservation of references *)

Lemma owners_fresh (m : gmap addr CFWrapper) p w h :
  m !! p = None →
  map_fold (λ _ w acc, owned_refs w h + acc) 0 (<[p := w]> m)
  = owned_refs w h + map_fold (λ _ w acc, owned_refs w h + acc) 0 m.
Proof.
  intros Hp.
  rewrite (map_fold_insert_L (λ _ w acc, owned_refs w h + acc) 0 p w m);
    [done|intros; lia|done].
Qed.

Lemma owners_gone (m : gmap addr CFWrapper) p w0 h :
  m !! p = Some w0 →
  map_fold (λ _ w acc, owned_refs w h + acc) 0 (delete p m)
  = map_fold (λ _ w acc, owned_refs w h + acc) 0 m - owned_refs w0 h.
Proof.
  intros Hp.
  rewrite (map_fold_delete_L (λ _ w acc, owned_refs w h + acc) 0 p w0 m);
    [lia|intros; lia|done].
Qed.

Lemma owners_replaced (m : gmap addr CFWrapper) p w0 w h :
  m !! p = Some w0 →
  map_fold (λ _ w acc, owned_refs w h + acc) 0 (<[p := w]> m)
  = map_fold (λ _ w acc, owned_refs w h + acc) 0 m - owned_refs w0 h + owned_refs w h.
Proof.
  intros Hp. rewrite <- insert_delete_eq.
  rewrite owners_fresh by apply lookup_delete_eq.
  rewrite (owners_gone _ _ _ _ Hp). lia.
Qed.

Lemma refcount_release_owned w rf h :
  refcount (refs_release w rf) h = refcount rf h - owned_refs w h.
Proof. rewrite refcount_release. unfold owned_refs. destruct (_ && _); lia. Qed.

Lemma refcount_retain_owned w rf h :
  refcount (refs_retain w rf) h = refcount rf h + owned_refs w h.
Proof. rewrite refcount_retain. unfold owned_refs. destruct (_ && _); lia. Qed.

Lemma owned_refs_empty b h : owned_refs (mkCFWrapper nullptr b) h = 0.
Proof. done. Qed.

(** One command: the count of [h] and the number of its owners move
    together, except for what the client hands over or takes back. *)
Lemma step_reference_law c σ u σ1 h :
  exec_cmd c σ = Some (u, σ1) →
  R σ1 h - owners σ1 h = R σ h - owners σ h - adopted c σ h + surrendered c σ h.
Proof.
  unfold R, owners. intros Hrun.
  destruct c as [p o r|p s|p s|p s|p s|p o|p|p];
    cbn [exec_cmd adopted surrendered] in *.
  - apply ctor_inv in Hrun as [Hp ->]. cbn [objs refs].
    rewrite owners_fresh by done. lia.
  - apply copy_ctor_inv in Hrun as (Hp & r & Hs & ->). cbn [objs refs].
    rewrite owners_fresh, refcount_retain_owned by done. lia.
  - apply move_ctor_inv in Hrun as (Hp & r & Hs & ->). cbn [objs refs].
    assert (p ≠ s) by congruence.
    rewrite (owners_replaced _ s r) by by rewrite lookup_insert_ne.
    rewrite owners_fresh, owned_refs_empty by done. lia.
  - apply assign_copy_inv in Hrun as (w & r & Hp & Hs & [[_ ->]|[Hne ->]]); [lia|].
    cbn [objs refs].
    rewrite (owners_replaced _ p w), refcount_retain_owned, refcount_release_owned by done.
    lia.
  - apply assign_move_inv in Hrun as (w & r & Hp & Hs & [[_ ->]|[Hne ->]]); [lia|].
    cbn [objs refs]. pose proof (distinct_objects _ _ _ _ _ Hp Hs Hne).
    rewrite (owners_replaced _ s r) by by rewrite lookup_insert_ne.
    rewrite (owners_replaced _ p w), refcount_release_owned, owned_refs_empty by done.
    lia.
  - apply assign_raw_inv in Hrun as (w & Hp & [[Heq ->]|[Hne ->]]); rewrite Hp.
    + apply ptr_ne_false in Heq. rewrite Heq. lia.
    + cbn [objs refs]. apply ptr_ne_true in Hne. rewrite Hne.
      rewrite (owners_replaced _ p w), refcount_release_owned by done. lia.
  - unfold bind in Hrun. destruct (Relinquish p σ) as [[o σ']|] eqn:HR; [|done].
    injection Hrun as _ <-. apply Relinquish_inv in HR as (w & Hp & _ & ->).
    rewrite Hp. cbn [objs refs].
    rewrite (owners_replaced _ p w), owned_refs_empty by done. lia.
  - apply destroy_inv in Hrun as (w & Hp & ->). cbn [objs refs].
    rewrite (owners_gone _ p w), refcount_release_owned by done. lia.
Qed.

Lemma between_wrappers_nothing_handed_over c σ h :
  between_wrappers c = true → adopted c σ h - surrendered c σ h = 0.
Proof. by destruct c. Qed.

(** X8: conservation of references.  Over any program of wrapper operations
    that runs to completion, the reference count of a handle changes exactly
    as the number of wrappers that own it, corrected by the references the
    client handed over to wrappers (adopting constructor, assignment of a raw
    handle) or took back ([Relinquish]).  Copies, moves, assignments between
    wrappers and destructions keep the difference constant.  When the program
    starts and ends with no wrapper alive, the count has dropped by exactly
    the number of references handed over: each was released once, none was
    leaked and none released twice. *)
Theorem references_are_conserved
    (h : handle) (prog : list cmd) (σ : world) (n : Z) (σ' : world) :
  handed_over h prog σ = Some (n, σ') →
  R σ' h - owners σ' h = R σ h - owners σ h - n
  ∧ (forallb between_wrappers prog = true → n = 0)
  ∧ (objs σ = ∅ → objs σ' = ∅ → R σ' h = R σ h - n).
Proof.
  intros Hrun.
  assert (Hlaw : R σ' h - owners σ' h = R σ h - owners σ h - n
                 ∧ (forallb between_wrappers prog = true → n = 0)).
  { revert σ n Hrun. induction prog as [|c prog IH]; intros σ n; cbn [handed_over forallb].
    - intros [= <- <-]. split; [lia|done].
    - destruct (exec_cmd c σ) as [[u σ1]|] eqn:Hstep; [|done].
      destruct (handed_over h prog σ1) as [[m σ2]|] eqn:Hrest; [|done].
      intros [= <- <-]. destruct (IH _ _ Hrest) as [Hlaw Hzero].
      pose proof (step_reference_law _ _ _ _ h Hstep). split; [lia|].
      intros [Hc Hprog]%andb_prop.
      rewrite (between_wrappers_nothing_handed_over _ _ _ Hc), (Hzero Hprog). lia. }
  destruct Hlaw as [Hlaw Hzero]. do 2 (split; [done|]).
  intros H0 H1. unfold owners in Hlaw. rewrite H0, H1, map_fold_empty in Hlaw. lia.
Qed.

(** X8 on a concrete program: handle 7 is adopted, copied, moved, overwritten
    by the raw handle 5, and all wrappers are destroyed. *)
Lemma references_are_conserved_witness :
  let σ := mkWorld ∅ {[ 5%N := 1; 7%N := 1 ]} [] in
  let prog := [Construct 1 7 true; CopyCtor 2 1; MoveCtor 3 2; AssignRaw 1 5;
               Destroy 2; Destroy 3; Destroy 1] in
  ∃ σ', handed_over 7 prog σ = Some (1, σ')
      ∧ R σ' 7 - owners σ' 7 = R σ 7 - owners σ 7 - 1
      ∧ (forallb between_wrappers prog = true → 1 = 0)
      ∧ (objs σ = ∅ → objs σ' = ∅ → R σ' 7 = R σ 7 - 1).
Proof.
  intros σ prog. eexists. split; [vm_compute; reflexivity|].
  eapply (references_are_conserved 7%N prog σ 1).
  vm_compute. reflexivity.
Defined.

(** ** Host calls follow ownership *)

Lemma retained_retain_calls w :
  retained (retain_calls w) = if owning w then [mObject w] else [].
Proof. unfold retain_calls. by destruct (owning w). Qed.

Lemma holds_live σ a w h :
  objs σ !! a = Some w → holds σ a h = owning w && (mObject w =? h)%N.
Proof. unfold holds. by intros ->. Qed.

(** X9: a command releases a handle only if its target owned that handle
    before the command, and the target does not own it afterwards; a
    borrowed handle is never released.  A command retains a handle only if
    another wrapper, its source, owns that handle, and then the target owns
    it too afterwards, the source still owning it.  In either case at most
    one such call is made. *)
Theorem host_calls_follow_ownership
    (c : cmd) (σ : world) (u : unit) (σ1 : world) (h : handle) :
  exec_cmd c σ = Some (u, σ1) →
  (h ∈ released (new_calls σ σ1) →
     released (new_calls σ σ1) = [h]
     ∧ holds σ (target c) h = true
     ∧ holds σ1 (target c) h = false)
  ∧ (h ∈ retained (new_calls σ σ1) →
     retained (new_calls σ σ1) = [h]
     ∧ holds σ1 (target c) h = true
     ∧ ∃ s, s ≠ target c ∧ holds σ s h = true ∧ holds σ1 s h = true).
Proof.
  intros Hrun. split.
  - destruct (release_consumes_ownership _ _ _ _ Hrun) as [->|(w & Hw & Ho & -> & Hafter)].
    + by intros ?%elem_of_nil.
    + intros ->%list_elem_of_singleton. split; [done|]. split; [|done].
      rewrite (holds_live _ _ _ _ Hw), Ho, N.eqb_refl. done.
  - assert (Hcopy : ∀ p s r t (σ' : world),
              objs σ !! s = Some r → p ≠ s →
              calls σ' = calls σ ++ t ++ retain_calls r →
              retained t = [] →
              objs σ' !! p = Some r → objs σ' !! s = Some r →
              h ∈ retained (new_calls σ σ') →
              retained (new_calls σ σ') = [h]
              ∧ holds σ' p h = true
              ∧ ∃ s, s ≠ p ∧ holds σ s h = true ∧ holds σ' s h = true).
    { intros p s r t σ' Hs Hps Hc Ht Hp' Hs'. rewrite (new_calls_app _ _ _ Hc).
      rewrite retained_app, Ht, retained_retain_calls. cbn [app].
      destruct (owning r) eqn:Ho; [|by intros ?%elem_of_nil].
      intros ->%list_elem_of_singleton. split; [done|].
      rewrite (holds_live _ _ _ _ Hp'), Ho, N.eqb_refl. split; [done|].
      exists s. rewrite (holds_live _ _ _ _ Hs), (holds_live _ _ _ _ Hs'), Ho, N.eqb_refl.
      by split; [congruence|]. }
    assert (Hnone : ∀ (σ' : world) w,
              calls σ' = calls σ ++ release_calls w →
              h ∈ retained (new_calls σ σ') → False).
    { intros σ' w Hc. rewrite (new_calls_app _ _ _ Hc), retained_release_calls.
      by intros ?%elem_of_nil. }
    assert (Hsilent : ∀ σ' : world,
              calls σ' = calls σ → h ∈ retained (new_calls σ σ') → False).
    { intros σ' Hc. rewrite (new_calls_none _ _ Hc). by intros ?%elem_of_nil. }
    destruct c as [p o r|p s|p s|p s|p s|p o|p|p]; cbn [exec_cmd target] in *.
    + apply ctor_inv in Hrun as [_ ->]. intros []%Hsilent. done.
    + apply copy_ctor_inv in Hrun as (Hp & r & Hs & ->).
      apply (Hcopy p s r []); cbn; try done; [congruence|apply lookup_insert_eq|].
      rewrite lookup_insert_ne; [done|congruence].
    + apply move_ctor_inv in Hrun as (_ & r & _ & ->). intros []%Hsilent. done.
    + apply assign_copy_inv in Hrun as (w & r & Hp & Hs & [[_ ->]|[Hne ->]]).
      { intros []%Hsilent. done. }
      pose proof (distinct_objects _ _ _ _ _ Hp Hs Hne).
      apply (Hcopy p s r (release_calls w)); cbn;
        [done|done|done|apply retained_release_calls|apply lookup_insert_eq|].
      by rewrite lookup_insert_ne.
    + apply assign_move_inv in Hrun as (w & r & Hp & Hs & [[_ ->]|[Hne ->]]).
      { intros []%Hsilent. done. }
      intros []%(Hnone _ w). done.
    + apply assign_raw_inv in Hrun as (w & Hp & [[_ ->]|[Hne ->]]).
      { intros []%Hsilent. done. }
      intros []%(Hnone _ w). done.
    + unfold bind in Hrun. destruct (Relinquish p σ) as [[o σ']|] eqn:HR; [|done].
      injection Hrun as _ <-. apply Relinquish_inv in HR as (w & _ & _ & ->).
      intros []%Hsilent. done.
    + apply destroy_inv in Hrun as (w & Hp & ->). intros []%(Hnone _ w). done.
Qed.

Lemma host_calls_follow_ownership_witness :
  let σ := mkWorld {[ 1%positive := mkCFWrapper 5 true; 2%positive := mkCFWrapper 7 true ]}
                   {[ 5%N := 1; 7%N := 1 ]} [] in
  let σ1 := mkWorld {[ 1%positive := mkCFWrapper 7 true; 2%positive := mkCFWrapper 7 true ]}
                    {[ 5%N := 0; 7%N := 2 ]} [Release 5; Retain 7] in
  (5%N ∈ released (new_calls σ σ1) →
     released (new_calls σ σ1) = [5%N]
     ∧ holds σ 1 5 = true
     ∧ holds σ1 1 5 = false)
  ∧ (5%N ∈ retained (new_calls σ σ1) →
     retained (new_calls σ σ1) = [5%N]
     ∧ holds σ1 1 5 = true
     ∧ ∃ s, s ≠ 1%positive ∧ holds σ s 5 = true ∧ holds σ1 s 5 = true).
Proof.
  intros σ σ1.
  apply (host_calls_follow_ownership (AssignCopy 1 2) σ tt σ1 5%N).
  vm_compute. reflexivity.
Defined.

(** ** Equality as a relation *)



(** ** Copies *)

(** X11: a wrapper compares equal to the wrapper it was just copied from, by
    copy construction or by copy assignment, whatever the two held before and
    whatever the host thinks of the object: the comparison is decided by the
    identity of the handles and [CFEqual] is not called. *)
Theorem copy_compares_equal
    (host_equal : handle → handle → bool) (k : copy_kind) (σ : world)
    (this rhs : addr) (r : CFWrapper) :
  objs σ !! rhs = Some r →
  match k with
  | CopyConstruct => objs σ !! this = None
  | CopyAssign => is_Some (objs σ !! this)
  end →
  ∃ σ', copy k this rhs σ = Some (tt, σ')
      ∧ op_eq host_equal this rhs σ' = Some (true, σ')
      ∧ op_ne host_equal this rhs σ' = Some (false, σ').
Proof.
  intros Hrhs Hthis.
  assert (Heq : ∀ σ' w, objs σ' !! this = Some w → objs σ' !! rhs = Some r →
                  mObject w = mObject r →
                  op_eq host_equal this rhs σ' = Some (true, σ')
                  ∧ op_ne host_equal this rhs σ' = Some (false, σ')).
  { intros σ' w Hw Hr Hsame.
    assert (He : op_eq host_equal this rhs σ' = Some (true, σ')).
    { rewrite (op_eq_run host_equal _ _ _ _ _ Hw Hr), Hsame. by rewrite N.eqb_refl. }
    split; [done|]. unfold op_ne. by rewrite (bind_run _ _ _ _ _ He). }
  destruct k; cbn [copy].
  - assert (this ≠ rhs) by congruence.
    eexists. split; [by apply copy_ctor_run|].
    apply (Heq _ r); cbn; [apply lookup_insert_eq|by rewrite lookup_insert_ne|done].
  - destruct Hthis as [w Hthis]. destruct (decide (mObject w = mObject r)) as [Hsame|Hne].
    + exists σ. split; [by apply (assign_copy_same _ _ _ w r)|]. by apply (Heq _ w).
    + pose proof (distinct_objects _ _ _ _ _ Hthis Hrhs Hne).
      eexists. split; [by apply assign_copy_run|].
      apply (Heq _ r); cbn; [apply lookup_insert_eq|by rewrite lookup_insert_ne|done].
Qed.

Lemma copy_compares_equal_witness :
  let σ := mkWorld {[ 1%positive := mkCFWrapper 5 true; 2%positive := mkCFWrapper 7 true ]}
                   {[ 5%N := 1; 7%N := 1 ]} [] in
  ∃ σ', copy CopyAssign 1 2 σ = Some (tt, σ')
      ∧ op_eq (λ _ _, false) 1 2 σ' = Some (true, σ')
      ∧ op_ne (λ _ _, false) 1 2 σ' = Some (false, σ').
Proof.
  intros σ.
  apply (copy_compares_equal (λ _ _, false) CopyAssign σ 1%positive 2%positive
           (mkCFWrapper 7 true)).
  - reflexivity.
  - exists (mkCFWrapper 5 true). reflexivity.
Defined.

(** X12: copying a wrapper that does not own its handle (an empty or a
    borrowing one) never retains anything.  The copy holds the same handle
    with the same flag, no reference count grows, and destroying the copy
    makes no host call. *)
Theorem copy_of_non_owner_is_silent
    (k : copy_kind) (σ : world) (this rhs : addr) (r : CFWrapper) :
  objs σ !! rhs = Some r →
  owning r = false →
  copy_target k σ this r →
  ∃ σ' σ'', copy k this rhs σ = Some (tt, σ')
      ∧ retained (new_calls σ σ') = []
      ∧ objs σ' !! this = Some r
      ∧ objs σ' !! rhs = Some r
      ∧ (∀ h, R σ' h ≤ R σ h)
      ∧ destroy this σ' = Some (tt, σ'')
      ∧ calls σ'' = calls σ'
      ∧ refs σ'' = refs σ'.
Proof.
  intros Hrhs Ho Htarget.
  assert (Hdestroy : ∀ σ', objs σ' !! this = Some r →
            ∃ σ'', destroy this σ' = Some (tt, σ'') ∧ calls σ'' = calls σ' ∧ refs σ'' = refs σ').
  { intros σ' Hq. by apply (destroy_not_owning _ _ r). }
  destruct k; cbn [copy copy_target] in *.
  - assert (this ≠ rhs) by congruence.
    set (σ' := mkWorld (<[this := r]> (objs σ)) (refs_retain r (refs σ))
                       (calls σ ++ retain_calls r)).
    assert (Hthis' : objs σ' !! this = Some r) by (subst σ'; cbn; by rewrite lookup_insert_eq).
    destruct (Hdestroy σ' Hthis') as (σ'' & ? & ? & ?).
    exists σ', σ''. split; [by apply copy_ctor_run|].
    split. { rewrite (new_calls_app σ σ' (retain_calls r)) by done.
             by rewrite retained_retain_calls, Ho. }
    split; [done|]. split; [subst σ'; cbn; by rewrite lookup_insert_ne|].
    split; [|done]. intros h. unfold R. subst σ'. cbn [refs].
    rewrite refcount_retain, Ho. cbn. lia.
  - destruct Htarget as (w & Hthis & Hne).
    pose proof (distinct_objects _ _ _ _ _ Hthis Hrhs Hne).
    set (σ' := mkWorld (<[this := r]> (objs σ)) (refs_retain r (refs_release w (refs σ)))
                       (calls σ ++ release_calls w ++ retain_calls r)).
    assert (Hthis' : objs σ' !! this = Some r) by (subst σ'; cbn; by rewrite lookup_insert_eq).
    destruct (Hdestroy σ' Hthis') as (σ'' & ? & ? & ?).
    exists σ', σ''. split; [by apply assign_copy_run|].
    split. { rewrite (new_calls_app σ σ' (release_calls w ++ retain_calls r)) by done.
             by rewrite retained_app, retained_release_calls, retained_retain_calls, Ho. }
    split; [done|]. split; [subst σ'; cbn; by rewrite lookup_insert_ne|].
    split; [|done]. intros h. unfold R. subst σ'. cbn [refs].
    rewrite refcount_retain, refcount_release, Ho. cbn.
    destruct (owning w && (mObject w =? h)%N); lia.
Qed.

Lemma copy_of_non_owner_is_silent_witness :
  let σ := mkWorld {[ 2%positive := mkCFWrapper 7 false ]} {[ 7%N := 1 ]} [] in
  ∃ σ' σ'', copy CopyConstruct 1 2 σ = Some (tt, σ')
      ∧ retained (new_calls σ σ') = []
      ∧ objs σ' !! 1%positive = Some (mkCFWrapper 7 false)
      ∧ objs σ' !! 2%positive = Some (mkCFWrapper 7 false)
      ∧ (∀ h, R σ' h ≤ R σ h)
      ∧ destroy 1 σ' = Some (tt, σ'')
      ∧ calls σ'' = calls σ'
      ∧ refs σ'' = refs σ'.
Proof.
  intros σ.
  apply (copy_of_non_owner_is_silent CopyConstruct σ 1%positive 2%positive
           (mkCFWrapper 7 false)); reflexivity.
Defined.

(** ** Round trips *)

(** X13: handing the handle out with [Relinquish] and assigning it back.
    The wrapper holds the same handle again and the host was not called.  A
    wrapper that owned its handle, or was empty, is exactly as before; a
    wrapper that only borrowed its handle has become its owner, and will
    release it when destroyed. *)
Theorem relinquish_then_assign_back (σ : world) (this : addr) (w : CFWrapper) :
  objs σ !! this = Some w →
  ∃ σ', (do h <- Relinquish this; assign_raw this h) σ = Some (tt, σ')
      ∧ calls σ' = calls σ
      ∧ refs σ' = refs σ
      ∧ (∀ h, state_of w = Borrowing h →
           objs σ' !! this = Some (mkCFWrapper h true)
           ∧ ∃ σ'', destroy this σ' = Some (tt, σ'') ∧ new_calls σ σ'' = [Release h])
      ∧ ((∀ h, state_of w ≠ Borrowing h) → σ' = σ).
Proof.
  intros Hthis. rewrite (bind_run _ _ _ _ _ (Relinquish_run _ _ _ Hthis)).
  set (σ0 := mkWorld _ _ _).
  assert (H0 : objs σ0 !! this = Some (mkCFWrapper nullptr (mRelease w)))
    by (subst σ0; cbn; apply lookup_insert_eq).
  destruct (decide (mObject w = nullptr)) as [Hnull|Hnn].
  - rewrite Hnull. pose proof (assign_raw_same _ _ _ H0) as Hsame.
    cbn [mObject] in Hsame. rewrite Hsame.
    exists σ0. do 3 (split; [done|]). split.
    + intros h [Hw Hh]%state_of_Borrowing. rewrite Hw in Hnull. by destruct Hh.
    + intros _. subst σ0. rewrite <- Hnull.
      rewrite (insert_id (objs σ) this) by by destruct w. apply world_eta.
  - rewrite (assign_raw_run _ _ _ _ H0) by (cbn; congruence).
    cbn [objs refs calls]. subst σ0. cbn [objs refs calls].
    rewrite insert_insert_eq.
    unfold refs_release, release_calls, owning. cbn [mObject nonnull negb N.eqb nullptr andb].
    rewrite app_nil_r.
    set (σ' := mkWorld _ _ _). exists σ'. do 3 (split; [done|]). split.
    + intros h [Hw _]%state_of_Borrowing. subst w. cbn [mObject] in *.
      assert (Hlive : objs σ' !! this = Some (mkCFWrapper h true))
        by (subst σ'; cbn; apply lookup_insert_eq).
      split; [done|].
      destruct (destroy_owning _ _ _ Hlive) as (σ'' & Hd & Hc & _); [by apply owning_iff|].
      exists σ''. split; [done|]. by apply new_calls_app.
    + intros Hnb. destruct w as [o [|]]; cbn in *.
      * subst σ'. rewrite insert_id by done. apply world_eta.
      * destruct (Hnb o). by apply state_of_Borrowing.
Qed.

Lemma relinquish_then_assign_back_witness :
  let σ := mkWorld {[ 1%positive := mkCFWrapper 7 false ]} {[ 7%N := 1 ]} [] in
  ∃ σ', (do h <- Relinquish 1; assign_raw 1 h) σ = Some (tt, σ')
      ∧ calls σ' = calls σ
      ∧ refs σ' = refs σ
      ∧ objs σ' !! 1%positive = Some (mkCFWrapper 7 true)
      ∧ ∃ σ'', destroy 1 σ' = Some (tt, σ'') ∧ new_calls σ σ'' = [Release 7].
Proof.
  intros σ.
  destruct (relinquish_then_assign_back σ 1%positive (mkCFWrapper 7 false) eq_refl)
    as (σ' & Hrun & Hc & Hr & Hb & _).
  exists σ'. do 3 (split; [assumption|]). apply (Hb 7%N). reflexivity.
Defined.

(** X14: moving out and back.  Move-constructing [b] from [a] and then
    move-assigning [b] to [a] gives [a] its handle and flag back and leaves
    [b] empty, without any host call: ownership travelled twice and no
    reference count changed. *)
Theorem move_out_and_back (σ : world) (a b : addr) (w : CFWrapper) :
  objs σ !! a = Some w →
  objs σ !! b = None →
  ∃ σ', (move_ctor b a >> assign_move a b) σ = Some (tt, σ')
      ∧ objs σ' !! a = Some w
      ∧ objs σ' !! b = Some (mkCFWrapper nullptr (mRelease w))
      ∧ calls σ' = calls σ
      ∧ refs σ' = refs σ
      ∧ ∀ q, q ≠ b → objs σ' !! q = objs σ !! q.
Proof.
  intros Ha Hb. assert (b ≠ a) by congruence.
  rewrite (bind_run _ _ _ _ _ (move_ctor_run _ _ _ _ Hb Ha)).
  set (σ0 := mkWorld _ _ _).
  assert (Ha0 : objs σ0 !! a = Some (mkCFWrapper nullptr (mRelease w)))
    by (subst σ0; cbn; apply lookup_insert_eq).
  assert (Hb0 : objs σ0 !! b = Some w)
    by (subst σ0; cbn; by rewrite lookup_insert_ne, lookup_insert_eq).
  destruct (decide (mObject w = nullptr)) as [Hnull|Hnn].
  - rewrite (assign_move_same _ _ _ _ _ Ha0 Hb0) by done.
    assert (Hw : w = mkCFWrapper nullptr (mRelease w)) by (destruct w; cbn in *; by subst).
    exists σ0. split; [done|]. split; [by rewrite Ha0, <- Hw|].
    split; [by rewrite Hb0, Hw|]. do 2 (split; [done|]).
    intros q Hq. subst σ0. cbn. rewrite <- Hw, (insert_id _ a w).
    + by rewrite lookup_insert_ne.
    + by rewrite lookup_insert_ne.
  - rewrite (assign_move_run _ _ _ _ _ Ha0 Hb0) by (cbn; congruence).
    subst σ0. cbn [objs refs calls].
    unfold refs_release, release_calls, owning. cbn [mObject nonnull negb N.eqb nullptr andb].
    rewrite app_nil_r. eexists. split; [done|]. cbn [objs refs calls].
    split; [by rewrite lookup_insert_ne, lookup_insert_eq|].
    split; [by rewrite lookup_insert_eq|]. do 2 (split; [done|]).
    intros q Hq. rewrite lookup_insert_ne by done.
    destruct (decide (q = a)) as [->|Hqa].
    + by rewrite lookup_insert_eq.
    + by rewrite !lookup_insert_ne.
Qed.

Lemma move_out_and_back_witness :
  let σ := mkWorld {[ 1%positive := mkCFWrapper 7 true ]} {[ 7%N := 1 ]} [] in
  ∃ σ', (move_ctor 2 1 >> assign_move 1 2) σ = Some (tt, σ')
      ∧ objs σ' !! 1%positive = Some (mkCFWrapper 7 true)
      ∧ objs σ' !! 2%positive = Some (mkCFWrapper nullptr true)
      ∧ calls σ' = calls σ
      ∧ refs σ' = refs σ
      ∧ ∀ q, q ≠ 2%positive → objs σ' !! q = objs σ !! q.
Proof.
  intros σ.
  apply (move_out_and_back σ 1%positive 2%positive (mkCFWrapper 7 true)); reflexivity.
Defined.

(** ** Deferred closures in a scope *)

Lemma apply_callables_app {Env : Type} (m : gmap addr (Env → Env)) cs1 cs2 (e : Env) :
  apply_callables m (cs1 ++ cs2) e = apply_callables m cs2 (apply_callables m cs1 e).
Proof. revert e. induction cs1 as [|c cs1 IH]; intros e; cbn; [done|apply IH]. Qed.

(** X15: deferred closures declared one after the other in a block run after
    the body of the block, each exactly once, in the reverse order of their
    declaration; nothing runs while they are declared, and no deferred
    closure of the block is left behind. *)
Theorem deferred_scope_runs_in_reverse
    (Env : Type) (ds : list (addr * addr)) (body : Deferred.state Env → Deferred.state Env)
    (s : Deferred.state Env) :
  NoDup ds.*1 →
  (∀ this, this ∈ ds.*1 → Deferred.deferred s !! this = None) →
  (∀ c, c ∈ ds.*2 → is_Some (Deferred.callables s !! c)) →
  (∀ x, Deferred.deferred (body x) = Deferred.deferred x
        ∧ Deferred.callables (body x) = Deferred.callables x) →
  ∃ s_in s',
    deferred_scope ds (λ x, Some (body x)) s = Some s'
    ∧ Deferred.env s_in = Deferred.env s
    ∧ Deferred.invoked s_in = Deferred.invoked s
    ∧ Deferred.invoked s' = Deferred.invoked (body s_in) ++ rev ds.*2
    ∧ Deferred.env s'
      = apply_callables (Deferred.callables s) (rev ds.*2) (Deferred.env (body s_in))
    ∧ Deferred.deferred s' = Deferred.deferred s
    ∧ Deferred.callables s' = Deferred.callables s.
Proof.
  intros Hnodup Hfresh Halive Hbody. revert s Hnodup Hfresh Halive.
  induction ds as [|[this c] ds IH]; intros s Hnodup Hfresh Halive; cbn [deferred_scope].
  - exists s, (body s). destruct (Hbody s) as [? ?]. cbn. rewrite app_nil_r. done.
  - cbn in Hnodup, Hfresh, Halive. apply NoDup_cons in Hnodup as [Hnotin Hnodup].
    unfold Deferred.ctor at 1. rewrite (Hfresh this) by apply list_elem_of_here.
    set (s1 := Deferred.mkState _ _ _ _).
    destruct (IH s1) as (s_in & s2 & Hrun & He & Hi & Hinv & Henv & Hdef & Hcall).
    { done. }
    { intros t Ht. subst s1. cbn. rewrite lookup_insert_ne; [|by intros ->].
      apply Hfresh. by apply list_elem_of_further. }
    { intros c' Hc'. subst s1. cbn. apply Halive. by apply list_elem_of_further. }
    rewrite Hrun. destruct (Halive c) as [f Hf]; [apply list_elem_of_here|].
    unfold Deferred.dtor, Deferred.call. rewrite Hdef, Hcall. subst s1. cbn.
    rewrite lookup_insert_eq. cbn. rewrite Hf.
    exists s_in. eexists. split; [done|]. cbn.
    split; [done|]. split; [done|]. split; [by rewrite Hinv, app_assoc|].
    split. { rewrite apply_callables_app, Henv. cbn. by rewrite Hf. }
    split; [|done]. rewrite delete_insert_eq. apply delete_id.
    apply Hfresh, list_elem_of_here.
Qed.

Lemma deferred_scope_runs_in_reverse_witness :
  let append (token : nat) (l : list nat) := l ++ [token] in
  let s := Deferred.mkState []
             {[ 11%positive := append 1%nat; 12%positive := append 2%nat;
                13%positive := append 3%nat ]} ∅ [] in
  let ds := [(1%positive, 11%positive); (2%positive, 12%positive);
             (3%positive, 13%positive)] in
  ∃ s_in s',
    deferred_scope ds (λ x, Some x) s = Some s'
    ∧ Deferred.env s_in = []
    ∧ Deferred.invoked s_in = []
    ∧ Deferred.invoked s' = Deferred.invoked s_in ++ [13%positive; 12%positive; 11%positive]
    ∧ Deferred.env s'
      = apply_callables (Deferred.callables s) [13%positive; 12%positive; 11%positive]
          (Deferred.env s_in)
    ∧ Deferred.deferred s' = ∅
    ∧ Deferred.callables s' = Deferred.callables s.
Proof.
  intros append s ds.
  apply (deferred_scope_runs_in_reverse (list nat) ds (λ x, x) s).
  - apply (bool_decide_unpack _). vm_compute. reflexivity.
  - intros this _. reflexivity.
  - intros c Hc. cbn in Hc.
    repeat (apply elem_of_cons in Hc; destruct Hc as [->|Hc];
            [eexists; reflexivity|]).
    by apply elem_of_nil in Hc.
  - done.
Defined.

(** X16: the callable is held by reference.  What runs at destruction is
    the callable found at that address then, not the one that was there at
    construction; and if the callable is gone by then, the destruction of the
    deferred closure is undefined. *)
Theorem deferred_closure_follows_its_reference
    (Env : Type) (s : Deferred.state Env) (this closure : addr) (e : Env)
    (later : gmap addr (Env → Env)) :
  Deferred.deferred s !! this = None →
  ∃ s1, Deferred.ctor this closure s = Some s1
      ∧ let s1' := Deferred.mkState e later (Deferred.deferred s1) (Deferred.invoked s1) in
        (∀ g, later !! closure = Some g →
           ∃ s2, Deferred.dtor this s1' = Some s2
               ∧ Deferred.env s2 = g e
               ∧ Deferred.invoked s2 = Deferred.invoked s ++ [closure])
        ∧ (later !! closure = None → Deferred.dtor this s1' = None).
Proof.
  intros Hfresh. unfold Deferred.ctor. rewrite Hfresh. eexists. split; [done|].
  cbn. unfold Deferred.dtor, Deferred.call. cbn. rewrite lookup_insert_eq. cbn. split.
  - intros g ->. by eexists.
  - by intros ->.
Qed.

Lemma deferred_closure_follows_its_reference_witness :
  let s := Deferred.mkState 0%nat {[ 9%positive := S ]} ∅ [] in
  ∃ s1, Deferred.ctor 1 9 s = Some s1
      ∧ let s1' := Deferred.mkState 40%nat {[ 9%positive := Nat.add 2 ]}
                     (Deferred.deferred s1) (Deferred.invoked s1) in
        (∀ g, ({[ 9%positive := Nat.add 2 ]} : gmap addr (nat → nat)) !! 9%positive = Some g →
           ∃ s2, Deferred.dtor 1 s1' = Some s2
               ∧ Deferred.env s2 = g 40%nat
               ∧ Deferred.invoked s2 = Deferred.invoked s ++ [9%positive])
        ∧ (({[ 9%positive := Nat.add 2 ]} : gmap addr (nat → nat)) !! 9%positive = None →
           Deferred.dtor 1 s1' = None).
Proof.
  intros s.
  apply (deferred_closure_follows_its_reference nat s 1%positive 9%positive 40%nat
           {[ 9%positive := Nat.add 2 ]}).
  reflexivity.
Defined.
